(** * cachi2: the rpm package manager (cachi2/core/package_managers/rpm.py)

    A shallow embedding of the rpm plugin: the pydantic lockfile model
    ([Package], [Arch], [RpmsLock]), [RpmsLock.from_file],
    [RpmsLock.download] and [fetch_rpm_source], and the properties of the
    plugin's specification stated over them.

    Python dictionaries are finite maps ([gmap]), strings are [string],
    Python integers are [Z].  The outside world (the file system, the
    external fetcher, the configuration) is a record of oracles, and every
    effectful function returns, with its result or exception, the trace of
    the external operations it performed. *)

From stdpp Require Import gmap strings list fin_maps.
From Stdlib Require Import Ascii ZArith Lia SpecFloat.

Set Warnings "-register-all".
Open Scope string_scope.
Open Scope list_scope.
#[local] Arguments String.append !s1 s2 : simpl nomatch.

(** ** Python's [posixpath]: [join], [basename], [dirname] *)

Module os_path.

Definition is_sep (c : ascii) : bool := Ascii.eqb c "/"%char.

Definition startswith_sep (s : string) : bool :=
  match s with
  | String c _ => is_sep c
  | EmptyString => false
  end.

Fixpoint endswith_sep (s : string) : bool :=
  match s with
  | EmptyString => false
  | String c EmptyString => is_sep c
  | String _ rest => endswith_sep rest
  end.

(** [sep in s] *)
Fixpoint has_sep (s : string) : bool :=
  match s with
  | EmptyString => false
  | String c rest => is_sep c || has_sep rest
  end.

Definition is_empty (s : string) : bool :=
  match s with EmptyString => true | _ => false end.

(** One turn of the loop of [posixpath.join]:
    [if b.startswith(sep): path = b
     elif not path or path.endswith(sep): path += b
     else: path += sep + b] *)
Definition join_step (path b : string) : string :=
  if startswith_sep b then b
  else if is_empty path || endswith_sep path then path +:+ b
  else path +:+ "/" +:+ b.

(** [os.path.join(a, *p)] *)
Definition join (a : string) (p : list string) : string :=
  fold_left join_step p a.

(** [os.path.basename(p)]: [p[p.rfind(sep) + 1:]] *)
Fixpoint basename (p : string) : string :=
  match p with
  | EmptyString => EmptyString
  | String c rest =>
      if has_sep rest then basename rest
      else if is_sep c then rest else p
  end.

(** [p[:p.rfind(sep) + 1]] *)
Fixpoint head (p : string) : string :=
  match p with
  | EmptyString => EmptyString
  | String c rest =>
      if has_sep rest then String c (head rest)
      else if is_sep c then "/" else EmptyString
  end.

(** [s.rstrip(sep)] *)
Fixpoint rstrip_sep (s : string) : string :=
  match s with
  | EmptyString => EmptyString
  | String c rest =>
      let rest' := rstrip_sep rest in
      if is_sep c && is_empty rest' then EmptyString else String c rest'
  end.

(** [head == sep * len(head)] *)
Fixpoint all_sep (s : string) : bool :=
  match s with
  | EmptyString => true
  | String c rest => is_sep c && all_sep rest
  end.

(** [os.path.dirname(p)] *)
Definition dirname (p : string) : string :=
  let h := head p in
  if all_sep h then h else rstrip_sep h.

End os_path.

(** ** The lockfile model *)

Record Package := mkPackage {
  repoid : string;
  url : string;
  checksum : string;
  size : Z
}.

Record Arch := mkArch {
  arch : string;
  packages : list Package;
  sources : list Package
}.

Record RpmsLock := mkRpmsLock {
  lockfileVersion : Z;
  lockfileVendor : string;
  lockfileType : string;
  arches : list Arch
}.

(** The destination of a binary package, as [RpmsLock.download] computes it:
    [os.path.join(output_dir, "deps", "rpm", arch.arch, pkg.repoid,
                  os.path.basename(pkg.url))] *)
Definition dest_package (output_dir : string) (a : Arch) (pkg : Package) : string :=
  os_path.join output_dir
    ["deps"; "rpm"; arch a; repoid pkg; os_path.basename (url pkg)].

(** The destination of a source package:
    [os.path.join(output_dir, "deps", "rpm", "sources", arch.arch, pkg.repoid,
                  os.path.basename(pkg.url))] *)
Definition dest_source (output_dir : string) (a : Arch) (pkg : Package) : string :=
  os_path.join output_dir
    ["deps"; "rpm"; "sources"; arch a; repoid pkg; os_path.basename (url pkg)].

(** ** Documents, as [yaml.safe_load] returns them

    The values that the safe loader builds: [None], booleans, integers,
    floats, strings, bytes ([!!binary]), dates and times ([!!timestamp],
    kept as their text), lists, the tuples that are the items of [!!omap]
    and [!!pairs], sets ([!!set], in iteration order) and dictionaries.  A
    dictionary is given by its entries with string keys and, apart, its
    entries with keys of another type. *)

Inductive ykey :=
| KNull
| KBool (b : bool)
| KInt (n : Z)
| KFloat (f : spec_float)
| KBytes (b : string)
| KTimestamp (text : string).

Inductive yaml :=
| YNull
| YBool (b : bool)
| YInt (n : Z)
| YFloat (f : spec_float)
| YStr (s : string)
| YBytes (b : string)
| YTimestamp (text : string)
| YSeq (items : list yaml)
| YTuple (items : list yaml)
| YSet (items : list yaml)
| YMap (entries : gmap string yaml) (others : list (ykey * yaml)).

(** ** Exceptions, external operations and their trace *)

Inductive exn :=
| FileNotFoundError (filename : string)   (* [open] of a missing file *)
| YAMLError                               (* [yaml.safe_load] *)
| TypeError                               (* keyword arguments from a non-mapping *)
| ValidationError                         (* pydantic: the schema is not met *)
| OSError (path : string)                 (* [os.makedirs] *)
| FetchError.                             (* raised out of [async_download_files] *)

Inductive event :=
| Open (path : string)
| Makedirs (path : string)
| FetchCall (files : gmap string string) (concurrency_limit : Z)
| FetchReturn (ok : bool).

(** What the program finds outside itself.  [fs path] is [None] when no file
    is at [path]; otherwise it gives what [yaml.safe_load] makes of the file,
    [None] when it is not YAML.  [getsize] is the size of the file that the
    run leaves at a path. *)
Record World := mkWorld {
  fs : string -> option (option yaml);
  makedirs_ok : string -> bool;
  fetch_ok : gmap string string -> bool;
  concurrency_limit : Z;
  getsize : string -> Z
}.

(** A computation: the trace of its external operations, and an exception or
    a value. *)
Definition M (A : Type) : Type := list event * (exn + A).

Definition ret {A} (a : A) : M A := ([], inr a).
Definition raise {A} (e : exn) : M A := ([], inl e).
Definition emit (e : event) : M unit := ([e], inr tt).

Definition bind {A B} (m : M A) (k : A -> M B) : M B :=
  match m with
  | (t, inl e) => (t, inl e)
  | (t, inr a) => let '(t', r) := k a in (t ++ t', r)
  end.

Notation "'do' x <- m ; k" := (bind m (fun x => k))
  (at level 10, x name, m at level 100, k at level 200).

Definition trace {A} (m : M A) : list event := fst m.
Definition outcome {A} (m : M A) : exn + A := snd m.

(** [open(path)] followed by [yaml.safe_load(f)] *)
Definition open_and_load (w : World) (path : string) : M yaml :=
  do _ <- emit (Open path);
  match fs w path with
  | None => raise (FileNotFoundError path)
  | Some None => raise YAMLError
  | Some (Some doc) => ret doc
  end.

(** [os.makedirs(path, exist_ok=True)] *)
Definition os_makedirs (w : World) (path : string) : M unit :=
  do _ <- emit (Makedirs path);
  if makedirs_ok w path then ret tt else raise (OSError path).

(** [asyncio.run(async_download_files(files, limit))]: the call blocks until
    the fetcher is done, and returns or raises. *)
Definition run_async_download_files (w : World)
    (files : gmap string string) (limit : Z) : M unit :=
  do _ <- emit (FetchCall files limit);
  do _ <- emit (FetchReturn (fetch_ok w files));
  if fetch_ok w files then ret tt else raise FetchError.

(** ** [RpmsLock.download] *)

(** The inner loop: [files[pkg.url] = dest] and
    [os.makedirs(os.path.dirname(dest), exist_ok=True)] for every package. *)
Fixpoint fill_files (w : World) (dest_of : Package -> string)
    (pkgs : list Package) (files : gmap string string) : M (gmap string string) :=
  match pkgs with
  | [] => ret files
  | pkg :: rest =>
      let dest := dest_of pkg in
      let files := <[url pkg := dest]> files in
      do _ <- os_makedirs w (os_path.dirname dest);
      fill_files w dest_of rest files
  end.

(** One partition: [files = {}], the loop, then the fetcher. *)
Definition download_partition (w : World) (dest_of : Package -> string)
    (pkgs : list Package) : M unit :=
  do files <- fill_files w dest_of pkgs ∅;
  run_async_download_files w files (concurrency_limit w).

Fixpoint download_arches (w : World) (output_dir : string) (l : list Arch) : M unit :=
  match l with
  | [] => ret tt
  | a :: rest =>
      do _ <- download_partition w (dest_package output_dir a) (packages a);
      do _ <- download_partition w (dest_source output_dir a) (sources a);
      download_arches w output_dir rest
  end.

Definition download (w : World) (self : RpmsLock) (output_dir : string) : M unit :=
  download_arches w output_dir (arches self).

(** ** The output of a fetch *)

Record Component := mkComponent {
  name : string;
  version : string;
  purl : string
}.

Record RequestOutput := mkRequestOutput {
  components : list Component
}.

(** [RequestOutput.from_obj_list(components=components)] *)
Definition from_obj_list (components : list Component) : RequestOutput :=
  mkRequestOutput components.

(** ** Validation, [RpmsLock.from_file] and [fetch_rpm_source]

    pydantic's reading of a scalar field ([int_field] for [int], [str_field]
    for [str]) and the [Request] of [cachi2.core.models.input] are not part
    of this module: they are parameters. *)

Section Plugin.

Variable int_field : yaml -> option Z.
Variable str_field : yaml -> option string.
Variable Request : Type.
Variable output_dir : Request -> string.

(** A required field of a model. *)
Definition required {A} (m : gmap string yaml) (key : string)
    (field : yaml -> option A) : option A :=
  m !! key ≫= field.

(** A field of type [List[T]]: pydantic takes a list, a tuple or a set, and
    validates the items in iteration order. *)
Definition list_field {A} (item : yaml -> option A) (v : yaml) : option (list A) :=
  match v with
  | YSeq items | YTuple items | YSet items => mapM item items
  | _ => None
  end.

(** A field whose type is a model: pydantic takes a dictionary, looks the
    fields up by name and ignores every other key, of whatever type. *)
Definition model_field {A} (validate : gmap string yaml -> option A)
    (v : yaml) : option A :=
  match v with
  | YMap m _ => validate m
  | _ => None
  end.

Definition Package_validate (m : gmap string yaml) : option Package :=
  repoid ← required m "repoid" str_field;
  url ← required m "url" str_field;
  checksum ← required m "checksum" str_field;
  size ← required m "size" int_field;
  Some (mkPackage repoid url checksum size).

Definition Arch_validate (m : gmap string yaml) : option Arch :=
  arch ← required m "arch" str_field;
  packages ← required m "packages" (list_field (model_field Package_validate));
  sources ← required m "sources" (list_field (model_field Package_validate));
  Some (mkArch arch packages sources).

Definition RpmsLock_validate (m : gmap string yaml) : option RpmsLock :=
  lockfileVersion ← required m "lockfileVersion" int_field;
  lockfileVendor ← required m "lockfileVendor" str_field;
  lockfileType ← required m "lockfileType" str_field;
  arches ← required m "arches" (list_field (model_field Arch_validate));
  Some (mkRpmsLock lockfileVersion lockfileVendor lockfileType arches).

(** [cls] called with the loaded document as its keyword arguments: a
    [TypeError] unless the document is a dictionary whose keys are all
    strings, then pydantic's validation; keys that name no field are
    ignored. *)
Definition RpmsLock_new (lockfile : yaml) : exn + RpmsLock :=
  match lockfile with
  | YMap m [] =>
      match RpmsLock_validate m with
      | Some lock => inr lock
      | None => inl ValidationError
      end
  | _ => inl TypeError
  end.

Definition from_file (w : World) (lockfile_path : string) : M RpmsLock :=
  do lockfile <- open_and_load w lockfile_path;
  ([], RpmsLock_new lockfile).

Definition fetch_rpm_source (w : World) (request : Request) : M RequestOutput :=
  let components : list Component := [] in
  do rpmslock <- from_file w "rpms.lock.yaml";
  do _ <- download w rpmslock (output_dir request);
  ret (from_obj_list components).

End Plugin.

(** ** Concrete inputs *)

(** The least reading of a scalar: a value of the declared type itself. *)
Definition exact_int (v : yaml) : option Z :=
  match v with YInt n => Some n | _ => None end.

Definition exact_str (v : yaml) : option string :=
  match v with YStr s => Some s | _ => None end.

(** A request with, beside its output directory, a source directory. *)
Record PlainRequest := mkPlainRequest {
  source_dir : string;
  request_output_dir : string
}.

Definition vim_enhanced_url : string :=
  "https://example.com/x86_64/Packages/v/vim-enhanced-9.1.158-1.fc38.x86_64.rpm".

Definition vim_src_url : string :=
  "https://example.com/source/tree/Packages/v/vim-9.1.158-1.fc38.src.rpm".

Definition vim_enhanced : Package :=
  mkPackage "updates" vim_enhanced_url
    "sha256:21bb2a09852e75a693d277435c162e1a910835c53c3cee7636dd552d450ed0f1" 1976132.

Definition vim_src : Package :=
  mkPackage "updates-source" vim_src_url
    "sha256:94803b5e1ff601bf4009f223cb53037cdfa2fe559d90251bbe85a3a5bc6d2aab" 14735448.

Definition x86_64 : Arch := mkArch "x86_64" [vim_enhanced] [vim_src].

Definition vim_lock : RpmsLock := mkRpmsLock 1 "redhat" "rpm" [x86_64].

Definition Package_doc (p : Package) : yaml :=
  YMap (list_to_map
    [("url", YStr (url p)); ("checksum", YStr (checksum p));
     ("size", YInt (size p)); ("repoid", YStr (repoid p))]) [].

(** The lockfile of the unit tests ([RPM_LOCK_FILE_DATA]), loaded. *)
Definition test_lockfile : yaml :=
  YMap (list_to_map
    [("lockfileVersion", YInt 1); ("lockfileVendor", YStr "redhat");
     ("arches", YSeq [YMap (list_to_map
        [("arch", YStr "x86_64");
         ("packages", YSeq [Package_doc vim_enhanced]);
         ("source", YSeq [Package_doc vim_src])]) []])]) [].

(** The same packages in the layout that [RpmsLock] declares. *)
Definition vim_lockfile : yaml :=
  YMap (list_to_map
    [("lockfileVersion", YInt 1); ("lockfileVendor", YStr "redhat");
     ("lockfileType", YStr "rpm");
     ("arches", YSeq [YMap (list_to_map
        [("arch", YStr "x86_64");
         ("packages", YSeq [Package_doc vim_enhanced]);
         ("sources", YSeq [Package_doc vim_src])]) []])]) [].

(** A working directory that holds [lockfile] as [rpms.lock.yaml], where
    directories can be made and every download succeeds, and where every
    file left on disk has [size_on_disk] bytes. *)
Definition world_with (lockfile : yaml) (size_on_disk : Z) : World :=
  mkWorld
    (fun path => if String.eqb path "rpms.lock.yaml" then Some (Some lockfile) else None)
    (fun _ => true) (fun _ => true) 5 (fun _ => size_on_disk).

(** A working directory without a lockfile. *)
Definition empty_world : World :=
  mkWorld (fun _ => None) (fun _ => true) (fun _ => true) 5 (fun _ => 0%Z).

(** A world whose fetcher fails on every call. *)
Definition offline_world (lockfile : yaml) : World :=
  mkWorld
    (fun path => if String.eqb path "rpms.lock.yaml" then Some (Some lockfile) else None)
    (fun _ => true) (fun _ => false) 5 (fun _ => 0%Z).

(** ** What a trace shows *)

(** The mappings handed to the fetcher, in call order. *)
Fixpoint fetch_calls (t : list event) : list (gmap string string) :=
  match t with
  | [] => []
  | FetchCall files _ :: t => files :: fetch_calls t
  | _ :: t => fetch_calls t
  end.

(** The directories asked of [os.makedirs], in call order. *)
Fixpoint made_dirs (t : list event) : list string :=
  match t with
  | [] => []
  | Makedirs d :: t => d :: made_dirs t
  | _ :: t => made_dirs t
  end.

(** The files opened, in call order. *)
Fixpoint opened (t : list event) : list string :=
  match t with
  | [] => []
  | Open p :: t => p :: opened t
  | _ :: t => opened t
  end.

(** The fetcher calls that have been issued and have not returned. *)
Fixpoint in_flight (t : list event) : Z :=
  match t with
  | [] => 0
  | FetchCall _ _ :: t => 1 + in_flight t
  | FetchReturn _ :: t => in_flight t - 1
  | _ :: t => in_flight t
  end.

(** Some mapping handed to the fetcher sends [u] to [d]. *)
Definition planned (t : list event) (u d : string) : bool :=
  existsb (fun files : gmap string string => bool_decide (files !! u = Some d))
    (fetch_calls t).

(** The two kinds of artifact of an architecture group. *)
Inductive kind := Binary | Source.

Definition dest (k : kind) : string -> Arch -> Package -> string :=
  match k with
  | Binary => dest_package
  | Source => dest_source
  end.

(** A path component that is not empty and holds no separator. *)
Definition plain (s : string) : Prop :=
  os_path.is_empty s = false ∧ os_path.has_sep s = false.

(** [os.path.join(output_dir, "deps", "rpm")] *)
Definition deps_rpm (output_dir : string) : string :=
  os_path.join output_dir ["deps"; "rpm"].

(** ** Fetch plans *)

(** The dictionary that the inner loop of [download] leaves in [files]. *)
Definition files_of (dest_of : Package -> string) (pkgs : list Package)
  : gmap string string :=
  foldl (fun files pkg => <[url pkg := dest_of pkg]> files) ∅ pkgs.

(** The mappings of a run, in the order of the loops: for every architecture
    group the binary packages, then the sources. *)
Fixpoint plan (output_dir : string) (l : list Arch) : list (gmap string string) :=
  match l with
  | [] => []
  | a :: rest =>
      files_of (dest_package output_dir a) (packages a)
      :: files_of (dest_source output_dir a) (sources a)
      :: plan output_dir rest
  end.

(** The directories of a run, in the order of the loops. *)
Fixpoint plan_dirs (output_dir : string) (l : list Arch) : list string :=
  match l with
  | [] => []
  | a :: rest =>
      map (fun pkg => os_path.dirname (dest_package output_dir a pkg)) (packages a)
      ++ map (fun pkg => os_path.dirname (dest_source output_dir a pkg)) (sources a)
      ++ plan_dirs output_dir rest
  end.

(** An event that is not a call of the fetcher or a return from it. *)
Definition quiet (e : event) : Prop :=
  match e with
  | FetchCall _ _ | FetchReturn _ => False
  | _ => True
  end.

(** Traces in which every call of the fetcher is followed at once by its
    return. *)
Inductive Sequential : list event -> Prop :=
| Sequential_nil : Sequential []
| Sequential_quiet e t : quiet e -> Sequential t -> Sequential (e :: t)
| Sequential_fetch files limit ok t :
    Sequential t -> Sequential (FetchCall files limit :: FetchReturn ok :: t).

#[local] Hint Constructors Sequential : core.

(** ** Shapes of documents *)

Definition is_int (v : yaml) : bool :=
  match v with YInt _ => true | _ => false end.

Definition is_str (v : yaml) : bool :=
  match v with YStr _ => true | _ => false end.


(** A value that is not [None], a list, a tuple, a set or a dictionary. *)
Definition scalar (v : yaml) : bool :=
  match v with
  | YNull | YSeq _ | YTuple _ | YSet _ | YMap _ _ => false
  | _ => true
  end.

(** The mapping has the key, with a value that satisfies [p]. *)
Definition has (m : gmap string yaml) (key : string) (p : yaml -> bool) : bool :=
  match m !! key with
  | Some v => p v
  | None => false
  end.

(** A sequence whose items satisfy [p]. *)
Definition seq_of (p : yaml -> bool) (v : yaml) : bool :=
  match v with
  | YSeq items => forallb p items
  | _ => false
  end.

(** A sequence, a tuple or a set whose items satisfy [p]. *)
Definition list_of (p : yaml -> bool) (v : yaml) : bool :=
  match v with
  | YSeq items | YTuple items | YSet items => forallb p items
  | _ => false
  end.

(** A dictionary whose entries with string keys satisfy [p]. *)
Definition mapping (p : gmap string yaml -> bool) (v : yaml) : bool :=
  match v with
  | YMap m _ => p m
  | _ => false
  end.

(** A dictionary whose keys are all strings. *)
Definition string_keyed (v : yaml) : bool :=
  match v with
  | YMap _ [] => true
  | _ => false
  end.

Definition package_shape (int_like str_like : yaml -> bool)
    (m : gmap string yaml) : bool :=
  has m "url" str_like && has m "checksum" str_like
  && has m "size" int_like && has m "repoid" str_like.

Definition arch_shape (lists : (yaml -> bool) -> yaml -> bool)
    (int_like str_like : yaml -> bool) (sources_key : string)
    (m : gmap string yaml) : bool :=
  has m "arch" str_like
  && has m "packages" (lists (mapping (package_shape int_like str_like)))
  && has m sources_key (lists (mapping (package_shape int_like str_like))).

(** The lockfile documents of the plugin's specification: [lockfileVersion],
    [lockfileVendor] and [arches], every group with [arch], [packages] and
    either [sources] or [source]. *)
Definition described_lockfile (doc : yaml) : bool :=
  mapping (fun m =>
    has m "lockfileVersion" is_int && has m "lockfileVendor" is_str
    && has m "arches" (seq_of (mapping (fun a =>
         arch_shape seq_of is_int is_str "sources" a
         || arch_shape seq_of is_int is_str "source" a))))
    doc.

(** The documents with the keys that the fields of [RpmsLock], [Arch] and
    [Package] declare: a dictionary with string keys only that holds
    [lockfileVersion], [lockfileVendor], [lockfileType] and [arches], and so
    on down to the packages, for [lists] where a list is declared and
    scalars that are [int_like] and [str_like]. *)
Definition lockfile_shape (lists : (yaml -> bool) -> yaml -> bool)
    (int_like str_like : yaml -> bool) (doc : yaml) : bool :=
  string_keyed doc
  && mapping (fun m =>
       has m "lockfileVersion" int_like && has m "lockfileVendor" str_like
       && has m "lockfileType" str_like
       && has m "arches" (lists (mapping (arch_shape lists int_like str_like "sources"))))
       doc.

(** With sequences where a list is declared. *)
Definition declared_lockfile (int_like str_like : yaml -> bool) (doc : yaml) : bool :=
  lockfile_shape seq_of int_like str_like doc.

(** With whatever pydantic takes for a list: sequences, tuples and sets. *)
Definition accepted_lockfile (int_like str_like : yaml -> bool) (doc : yaml) : bool :=
  lockfile_shape list_of int_like str_like doc.

(** ** More concrete inputs *)

(** The world [w], with other files on disk after the downloads. *)
Definition with_sizes (w : World) (sizes : string -> Z) : World :=
  mkWorld (fs w) (makedirs_ok w) (fetch_ok w) (concurrency_limit w) sizes.

(** A world with another configuration and other files on disk. *)
Definition other_world : World :=
  mkWorld (fun _ => Some None) (fun _ => true) (fun _ => true) 1 (fun _ => 7%Z).

(** Two entries of one repository, served by two mirrors. *)
Definition mirror_a : Package :=
  mkPackage "updates" "https://mirror-a.example.com/os/vim-9.1.158-1.fc38.x86_64.rpm"
    "sha256:21bb" 1976132.

Definition mirror_b : Package :=
  mkPackage "updates" "https://mirror-b.example.com/os/vim-9.1.158-1.fc38.x86_64.rpm"
    "sha256:21bb" 1976132.

Definition mirrored : Arch := mkArch "x86_64" [mirror_a; mirror_b] [].

(** One url listed twice, under two repositories. *)
Definition listed_first : Package :=
  mkPackage "updates" vim_enhanced_url "sha256:21bb" 1976132.

Definition listed_second : Package :=
  mkPackage "updates-testing" vim_enhanced_url "sha256:21bb" 1976132.

Definition plain_request : PlainRequest := mkPlainRequest "/src" "/out".

(** ** Documents of locks, and what a trace needs *)

(** The mapping that holds the fields of an architecture group under the
    keys that [Arch] declares; [Package_doc] does so for a package. *)
Definition Arch_doc (a : Arch) : yaml :=
  YMap (list_to_map
    [("arch", YStr (arch a));
     ("packages", YSeq (Package_doc <$> packages a));
     ("sources", YSeq (Package_doc <$> sources a))]) [].

(** The mapping that holds the fields of a lock under the keys that
    [RpmsLock] declares. *)
Definition RpmsLock_doc (self : RpmsLock) : yaml :=
  YMap (list_to_map
    [("lockfileVersion", YInt (lockfileVersion self));
     ("lockfileVendor", YStr (lockfileVendor self));
     ("lockfileType", YStr (lockfileType self));
     ("arches", YSeq (Arch_doc <$> arches self))]) [].

(** The package entries of a list of architecture groups. *)
Definition entries (l : list Arch) : list Package :=
  flat_map (fun a => packages a ++ sources a) l.

(** With the directories [made] at hand, every mapping that the trace hands
    to the fetcher has the directory of each of its destinations made
    before the call. *)
Fixpoint dirs_ready (made : list string) (t : list event) : Prop :=
  match t with
  | [] => True
  | Makedirs d :: t => dirs_ready (d :: made) t
  | FetchCall files _ :: t =>
      (∀ u x, files !! u = Some x -> os_path.dirname x ∈ made) ∧ dirs_ready made t
  | _ :: t => dirs_ready made t
  end.

(** The trace [t] ends with the operation that raised [e]: an [os.makedirs]
    that the world refuses, or a call of the fetcher that fails. *)
Definition stopped (w : World) (e : exn) (t : list event) : Prop :=
  (∃ path t', e = OSError path ∧ makedirs_ok w path = false
              ∧ t = t' ++ [Makedirs path])
  ∨ (∃ files t', e = FetchError ∧ fetch_ok w files = false
                 ∧ t = t' ++ [FetchCall files (concurrency_limit w); FetchReturn false]).

(** An event that, if it is a call of the fetcher, carries the configured
    limit. *)
Definition configured (w : World) (ev : event) : Prop :=
  match ev with
  | FetchCall _ limit => limit = concurrency_limit w
  | _ => True
  end.

(** The vim lockfile, with the key [1] beside the declared keys. *)
Definition integer_keyed_lockfile : yaml :=
  match vim_lockfile with
  | YMap m _ => YMap m [(KInt 1, YStr "one")]
  | doc => doc
  end.

(** A lockfile whose only group has an empty set for its sources. *)
Definition set_lockfile : yaml :=
  YMap (list_to_map
    [("lockfileVersion", YInt 1); ("lockfileVendor", YStr "redhat");
     ("lockfileType", YStr "rpm");
     ("arches", YSeq [YMap (list_to_map
        [("arch", YStr "x86_64");
         ("packages", YSeq [Package_doc vim_enhanced]);
         ("sources", YSet [])]) []])]) [].

(** The vim lockfile, with a list for the size of its binary package. *)
Definition list_sized_lockfile : yaml :=
  YMap (list_to_map
    [("lockfileVersion", YInt 1); ("lockfileVendor", YStr "redhat");
     ("lockfileType", YStr "rpm");
     ("arches", YSeq [YMap (list_to_map
        [("arch", YStr "x86_64");
         ("packages", YSeq [YMap (list_to_map
            [("url", YStr vim_enhanced_url); ("checksum", YStr "sha256:21bb");
             ("size", YSeq [YInt 1976132]); ("repoid", YStr "updates")]) []]);
         ("sources", YSeq [])]) []])]) [].

(** A world in which no directory can be made. *)
Definition readonly_world : World :=
  mkWorld (fun _ => None) (fun _ => false) (fun _ => true) 5 (fun _ => 0%Z).

(** * Examples of [os.path] *)

Example basename_url :
  os_path.basename "https://example.com/x86_64/Packages/v/vim-enhanced-9.1.158-1.fc38.x86_64.rpm"
  = "vim-enhanced-9.1.158-1.fc38.x86_64.rpm".
Proof. reflexivity. Qed.

Example dirname_dest :
  os_path.dirname "/out/deps/rpm/x86_64/updates/vim.rpm" = "/out/deps/rpm/x86_64/updates".
Proof. reflexivity. Qed.

Example join_absolute : os_path.join "/out" ["deps"; "/abs"; "x"] = "/abs/x".
Proof. reflexivity. Qed.

(** * Facts about [os.path] *)

Section os_path_facts.
Import os_path.

Lemma append_assoc (a b c : string) : (a +:+ b) +:+ c = a +:+ (b +:+ c).
Proof. induction a as [|x a IH]; simpl; [reflexivity | now f_equal]. Qed.

Lemma append_cancel_l (p x y : string) : p +:+ x = p +:+ y -> x = y.
Proof. induction p as [|c p IH]; simpl; intros H; [exact H | injection H as H; auto]. Qed.

Lemma is_empty_append (a b : string) :
  is_empty (a +:+ b) = is_empty a && is_empty b.
Proof. destruct a; reflexivity. Qed.

Lemma endswith_sep_append (a b : string) :
  is_empty b = false -> endswith_sep (a +:+ b) = endswith_sep b.
Proof.
  intros Hb. induction a as [|c a IH]; simpl; [reflexivity |].
  rewrite IH. destruct (a +:+ b) eqn:E; [|reflexivity].
  destruct a; simpl in E; [subst b; discriminate | discriminate].
Qed.

Lemma has_sep_startswith (s : string) : has_sep s = false -> startswith_sep s = false.
Proof. destruct s; simpl; [reflexivity |]. now intros [H _]%orb_false_iff. Qed.

Lemma has_sep_endswith (s : string) : has_sep s = false -> endswith_sep s = false.
Proof.
  induction s as [|c s IH]; simpl; [reflexivity |].
  intros [Hc Hs]%orb_false_iff. destruct s; [exact Hc | auto].
Qed.

Lemma has_sep_basename (p : string) : has_sep (basename p) = false.
Proof.
  induction p as [|c p IH]; simpl; [reflexivity |].
  destruct (has_sep p) eqn:Hp; [exact IH |].
  destruct (is_sep c) eqn:Hc; [exact Hp |].
  simpl. now rewrite Hc, Hp.
Qed.

(** The text before the first separator, and the text after it, are
    determined by the whole. *)
Lemma split_at_sep (a a' t t' : string) :
  has_sep a = false -> has_sep a' = false ->
  a +:+ String "/" t = a' +:+ String "/" t' -> a = a' ∧ t = t'.
Proof.
  revert a'. induction a as [|c a IH]; intros [|c' a']; simpl.
  - intros _ _ H. now injection H as ->.
  - intros _ [Hc _]%orb_false_iff H. injection H as <- _. discriminate Hc.
  - intros [Hc _]%orb_false_iff _ H. injection H as -> _. discriminate Hc.
  - intros [_ Ha]%orb_false_iff [_ Ha']%orb_false_iff H.
    injection H as -> H. destruct (IH a' Ha Ha' H) as [-> ->]. auto.
Qed.

(** Joining a component that does not start with a separator onto a path
    that is not empty and does not end with one. *)
Lemma join_step_component (path b : string) :
  is_empty path = false -> endswith_sep path = false ->
  startswith_sep b = false ->
  join_step path b = path +:+ String "/" b.
Proof. intros Hp He Hb. unfold join_step. now rewrite Hb, Hp, He. Qed.

Lemma endswith_sep_component (path b : string) :
  plain b -> is_empty (path +:+ String "/" b) = false
             ∧ endswith_sep (path +:+ String "/" b) = false.
Proof.
  intros [Hb Hs]. split.
  - rewrite is_empty_append. apply andb_false_intro2. reflexivity.
  - rewrite endswith_sep_append by reflexivity.
    simpl. destruct b; [discriminate Hb |]. now apply has_sep_endswith.
Qed.

Lemma deps_rpm_ends (output_dir : string) :
  is_empty (deps_rpm output_dir) = false
  ∧ endswith_sep (deps_rpm output_dir) = false.
Proof.
  unfold deps_rpm, join. simpl.
  assert (H : is_empty (join_step output_dir "deps") = false
              ∧ endswith_sep (join_step output_dir "deps") = false).
  { unfold join_step. simpl.
    destruct (is_empty output_dir || endswith_sep output_dir); split;
      rewrite ?is_empty_append, ?endswith_sep_append by reflexivity;
      try reflexivity; apply andb_false_intro2; reflexivity. }
  destruct H as [H1 H2].
  rewrite (join_step_component _ "rpm" H1 H2 eq_refl).
  now apply endswith_sep_component.
Qed.

Lemma deps_rpm_plain (output_dir : string) :
  is_empty output_dir = false -> endswith_sep output_dir = false ->
  deps_rpm output_dir = output_dir +:+ "/deps/rpm".
Proof.
  intros H1 H2. unfold deps_rpm, join. simpl.
  rewrite (join_step_component output_dir "deps" H1 H2 eq_refl).
  destruct (endswith_sep_component output_dir "deps") as [H3 H4]; [now split |].
  rewrite (join_step_component _ "rpm" H3 H4 eq_refl).
  now rewrite append_assoc.
Qed.

(** Three more components on a path. *)
Lemma join_three (path a r b : string) :
  is_empty path = false -> endswith_sep path = false ->
  plain a -> plain r -> has_sep b = false ->
  join path [a; r; b] = path +:+ String "/" (a +:+ String "/" (r +:+ String "/" b)).
Proof.
  intros H1 H2 Ha Hr Hb. unfold join. simpl.
  rewrite (join_step_component path a H1 H2) by (apply has_sep_startswith, Ha).
  destruct (endswith_sep_component path a Ha) as [H3 H4].
  rewrite (join_step_component _ r H3 H4) by (apply has_sep_startswith, Hr).
  destruct (endswith_sep_component (path +:+ String "/" a) r Hr) as [H5 H6].
  rewrite (join_step_component _ b H5 H6) by (now apply has_sep_startswith).
  rewrite !append_assoc. reflexivity.
Qed.

Lemma dest_package_plain (output_dir : string) (a : Arch) (pkg : Package) :
  plain (arch a) -> plain (repoid pkg) ->
  dest_package output_dir a pkg
  = deps_rpm output_dir
    +:+ String "/" (arch a +:+ String "/" (repoid pkg +:+ String "/" (basename (url pkg)))).
Proof.
  intros Ha Hr. destruct (deps_rpm_ends output_dir) as [H1 H2].
  change (dest_package output_dir a pkg)
    with (join (deps_rpm output_dir) [arch a; repoid pkg; basename (url pkg)]).
  apply join_three; auto using has_sep_basename.
Qed.

Lemma dest_source_plain (output_dir : string) (a : Arch) (pkg : Package) :
  plain (arch a) -> plain (repoid pkg) ->
  dest_source output_dir a pkg
  = deps_rpm output_dir
    +:+ String "/" ("sources" +:+ String "/" (arch a +:+ String "/"
          (repoid pkg +:+ String "/" (basename (url pkg))))).
Proof.
  intros Ha Hr. destruct (deps_rpm_ends output_dir) as [H1 H2].
  change (dest_source output_dir a pkg)
    with (join (join_step (deps_rpm output_dir) "sources")
            [arch a; repoid pkg; basename (url pkg)]).
  rewrite (join_step_component _ "sources" H1 H2 eq_refl).
  destruct (endswith_sep_component (deps_rpm output_dir) "sources") as [H3 H4];
    [now split |].
  rewrite join_three; auto using has_sep_basename.
  rewrite append_assoc. reflexivity.
Qed.

End os_path_facts.

Section monad_facts.
Context {A B : Type}.

Lemma bind_value (t : list event) (a : A) (k : A -> M B) :
  bind (t, inr a) k = (t ++ trace (k a), outcome (k a)).
Proof. unfold bind, trace, outcome. now destruct (k a). Qed.

(** A sequence that ends well: both parts did, one after the other. *)
Lemma bind_completed (m : M A) (k : A -> M B) (b : B) :
  outcome (bind m k) = inr b ->
  ∃ a, outcome m = inr a ∧ outcome (k a) = inr b
       ∧ trace (bind m k) = trace m ++ trace (k a).
Proof.
  destruct m as [t [e | a]]; [discriminate |].
  rewrite bind_value. simpl. eauto.
Qed.

End monad_facts.

Lemma os_makedirs_unfold (w : World) (path : string) :
  os_makedirs w path
  = ([Makedirs path], if makedirs_ok w path then inr tt else inl (OSError path)).
Proof. unfold os_makedirs. now destruct (makedirs_ok w path). Qed.

Lemma run_async_download_files_unfold (w : World) (files : gmap string string) (limit : Z) :
  run_async_download_files w files limit
  = ([FetchCall files limit; FetchReturn (fetch_ok w files)],
     if fetch_ok w files then inr tt else inl FetchError).
Proof. unfold run_async_download_files. now destruct (fetch_ok w files). Qed.

Lemma fetch_calls_app (t1 t2 : list event) :
  fetch_calls (t1 ++ t2) = fetch_calls t1 ++ fetch_calls t2.
Proof.
  induction t1 as [|[] t1 IH]; simpl; auto. now rewrite IH.
Qed.

Lemma in_flight_app (t1 t2 : list event) :
  in_flight (t1 ++ t2) = (in_flight t1 + in_flight t2)%Z.
Proof.
  induction t1 as [|[] t1 IH]; simpl; rewrite ?IH; lia.
Qed.

Lemma Sequential_app (t1 t2 : list event) :
  Sequential t1 -> Sequential t2 -> Sequential (t1 ++ t2).
Proof. induction 1; simpl; auto. Qed.

(** ** The inner loop *)

Lemma fill_files_completed (w : World) (dest_of : Package -> string)
    (pkgs : list Package) (files f : gmap string string) :
  outcome (fill_files w dest_of pkgs files) = inr f ->
  f = foldl (fun files pkg => <[url pkg := dest_of pkg]> files) files pkgs
  ∧ fetch_calls (trace (fill_files w dest_of pkgs files)) = []
  ∧ made_dirs (trace (fill_files w dest_of pkgs files))
    = map (fun pkg => os_path.dirname (dest_of pkg)) pkgs.
Proof.
  revert files. induction pkgs as [|pkg rest IH]; intros files; simpl.
  - intros [= <-]. auto.
  - rewrite os_makedirs_unfold.
    destruct (makedirs_ok w _); [|discriminate].
    rewrite bind_value. simpl. intros H.
    destruct (IH _ H) as (-> & Hc & Hd). rewrite Hc, Hd. auto.
Qed.

Lemma fill_files_quiet (w : World) (dest_of : Package -> string)
    (pkgs : list Package) (files : gmap string string) :
  Forall quiet (trace (fill_files w dest_of pkgs files)).
Proof.
  revert files. induction pkgs as [|pkg rest IH]; intros files; simpl.
  - constructor.
  - rewrite os_makedirs_unfold.
    destruct (makedirs_ok w _).
    + rewrite bind_value. simpl. constructor; [exact I | apply IH].
    + simpl. constructor; [exact I | constructor].
Qed.

Lemma quiet_Sequential (t : list event) : Forall quiet t -> Sequential t.
Proof. induction 1; auto. Qed.

Lemma quiet_fetch_calls (t : list event) : Forall quiet t -> fetch_calls t = [].
Proof. induction 1 as [|[] t Hq _ IH]; simpl; auto; destruct Hq. Qed.

(** ** One partition *)

Lemma download_partition_Sequential (w : World) (dest_of : Package -> string)
    (pkgs : list Package) :
  Sequential (trace (download_partition w dest_of pkgs)).
Proof.
  unfold download_partition.
  pose proof (fill_files_quiet w dest_of pkgs ∅) as Hq.
  destruct (fill_files w dest_of pkgs ∅) as [t [e | files]]; simpl in Hq.
  - now apply quiet_Sequential.
  - rewrite bind_value, run_async_download_files_unfold. simpl.
    apply Sequential_app; [now apply quiet_Sequential | auto].
Qed.

(** A partition hands the fetcher at most one mapping, the one its loop
    built. *)
Lemma download_partition_calls (w : World) (dest_of : Package -> string)
    (pkgs : list Package) :
  fetch_calls (trace (download_partition w dest_of pkgs)) = []
  ∨ fetch_calls (trace (download_partition w dest_of pkgs)) = [files_of dest_of pkgs].
Proof.
  unfold download_partition.
  pose proof (fill_files_quiet w dest_of pkgs ∅) as Hq.
  pose proof (fill_files_completed w dest_of pkgs ∅) as Hc.
  destruct (fill_files w dest_of pkgs ∅) as [t [e | files]]; simpl in Hq, Hc.
  - left. now apply quiet_fetch_calls.
  - right. destruct (Hc files eq_refl) as (-> & _ & _).
    rewrite bind_value, run_async_download_files_unfold. simpl.
    rewrite fetch_calls_app, (quiet_fetch_calls t Hq). reflexivity.
Qed.

Lemma download_partition_completed (w : World) (dest_of : Package -> string)
    (pkgs : list Package) :
  outcome (download_partition w dest_of pkgs) = inr tt ->
  fetch_calls (trace (download_partition w dest_of pkgs)) = [files_of dest_of pkgs]
  ∧ made_dirs (trace (download_partition w dest_of pkgs))
    = map (fun pkg => os_path.dirname (dest_of pkg)) pkgs.
Proof.
  unfold download_partition. intros H.
  apply bind_completed in H as (files & Hf & Hr & ->).
  apply fill_files_completed in Hf as (-> & Hc & Hd).
  rewrite run_async_download_files_unfold. simpl.
  rewrite fetch_calls_app, Hc. split; [reflexivity |].
  clear -Hd. revert Hd. generalize (trace (fill_files w dest_of pkgs ∅)).
  intros t <-. induction t as [|[] t IH]; simpl; auto. now rewrite IH.
Qed.

(** ** The whole download *)

Lemma made_dirs_app (t1 t2 : list event) :
  made_dirs (t1 ++ t2) = made_dirs t1 ++ made_dirs t2.
Proof.
  induction t1 as [|[] t1 IH]; simpl; auto. now rewrite IH.
Qed.

Lemma download_arches_Sequential (w : World) (output_dir : string) (l : list Arch) :
  Sequential (trace (download_arches w output_dir l)).
Proof.
  induction l as [|a rest IH]; simpl; [constructor |].
  pose proof (download_partition_Sequential w (dest_package output_dir a) (packages a)) as H1.
  pose proof (download_partition_Sequential w (dest_source output_dir a) (sources a)) as H2.
  destruct (download_partition w (dest_package output_dir a) (packages a))
    as [t1 [e1 | []]]; [exact H1 |].
  rewrite bind_value.
  destruct (download_partition w (dest_source output_dir a) (sources a))
    as [t2 [e2 | []]].
  - simpl. now apply Sequential_app.
  - rewrite bind_value. simpl. auto using Sequential_app.
Qed.

Lemma download_arches_completed (w : World) (output_dir : string) (l : list Arch) :
  outcome (download_arches w output_dir l) = inr tt ->
  fetch_calls (trace (download_arches w output_dir l)) = plan output_dir l
  ∧ made_dirs (trace (download_arches w output_dir l)) = plan_dirs output_dir l.
Proof.
  induction l as [|a rest IH]; simpl; [auto |]. intros H.
  apply bind_completed in H as ([] & H1 & H & ->).
  apply bind_completed in H as ([] & H2 & H3 & ->).
  rewrite !fetch_calls_app, !made_dirs_app.
  apply download_partition_completed in H1 as [-> ->].
  apply download_partition_completed in H2 as [-> ->].
  destruct (IH H3) as [-> ->]. auto.
Qed.

(** Complete or not, a run calls the fetcher with the first mappings of its
    plan, in order. *)
Lemma download_arches_calls (w : World) (output_dir : string) (l : list Arch) :
  fetch_calls (trace (download_arches w output_dir l)) `prefix_of` plan output_dir l.
Proof.
  induction l as [|a rest IH]; simpl; [reflexivity |].
  pose proof (download_partition_calls w (dest_package output_dir a) (packages a)) as H1.
  pose proof (download_partition_completed w (dest_package output_dir a) (packages a)) as C1.
  pose proof (download_partition_calls w (dest_source output_dir a) (sources a)) as H2.
  pose proof (download_partition_completed w (dest_source output_dir a) (sources a)) as C2.
  destruct (download_partition w (dest_package output_dir a) (packages a))
    as [t1 [e1 | []]]; simpl in H1, C1.
  { simpl. destruct H1 as [-> | ->]; [apply prefix_nil |].
    apply prefix_cons, prefix_nil. }
  destruct (C1 eq_refl) as [Ht1 _]. rewrite bind_value.
  destruct (download_partition w (dest_source output_dir a) (sources a))
    as [t2 [e2 | []]]; simpl in H2, C2.
  { simpl. rewrite fetch_calls_app, Ht1. simpl. apply prefix_cons.
    destruct H2 as [-> | ->]; [apply prefix_nil |].
    apply prefix_cons, prefix_nil. }
  destruct (C2 eq_refl) as [Ht2 _]. rewrite bind_value. simpl.
  rewrite !fetch_calls_app, Ht1, Ht2. simpl. now do 2 apply prefix_cons.
Qed.

(** In a sequential trace, at every point no call is in flight, or one is
    and its return comes next. *)
Lemma Sequential_split (t : list event) :
  Sequential t ->
  ∀ before after, t = before ++ after ->
    (in_flight before = 0%Z ∧ Sequential after)
    ∨ (in_flight before = 1%Z
       ∧ ∃ ok rest, after = FetchReturn ok :: rest ∧ Sequential rest).
Proof.
  induction 1 as [|e t He Ht IH|files limit ok t Ht IH]; intros before after E.
  - symmetry in E. apply app_eq_nil in E as [-> ->]. left. split; [reflexivity | constructor].
  - destruct before as [|e' before]; simpl in E.
    + subst after. left. split; [reflexivity | now constructor].
    + injection E as <- E. destruct (IH _ _ E) as [[H1 H2] | [H1 H2]].
      * left. split; [|exact H2]. destruct e; simpl; solve [exact H1 | destruct He].
      * right. split; [|exact H2]. destruct e; simpl; solve [exact H1 | destruct He].
  - destruct before as [|e1 before]; simpl in E.
    + subst after. left. split; [reflexivity | now constructor].
    + injection E as <- E. destruct before as [|e2 before]; simpl in E.
      * subst after. right. split; [reflexivity | eauto].
      * injection E as <- E. destruct (IH _ _ E) as [[H1 H2] | [H1 H2]].
        -- left. split; [simpl; lia | exact H2].
        -- right. split; [simpl; lia | exact H2].
Qed.

(** ** The dictionary of a partition *)

Section files_of_facts.
Variable dest_of : Package -> string.

Lemma files_of_snoc (pkgs : list Package) (pkg : Package) :
  files_of dest_of (pkgs ++ [pkg])
  = <[url pkg := dest_of pkg]> (files_of dest_of pkgs).
Proof. unfold files_of. now rewrite foldl_snoc. Qed.

Lemma files_of_dom (pkgs : list Package) :
  dom (files_of dest_of pkgs) = list_to_set (url <$> pkgs).
Proof.
  induction pkgs as [|pkg pkgs IH] using rev_ind; [apply dom_empty_L |].
  rewrite files_of_snoc, dom_insert_L, IH, fmap_app, list_to_set_app_L.
  simpl. rewrite (right_id_L ∅ (∪)). apply (comm_L (∪)).
Qed.

(** Later entries with other urls leave the entry of a url as it is. *)
Lemma foldl_step_other (pkgs : list Package) (files : gmap string string) (u : string) :
  Forall (fun q => url q ≠ u) pkgs ->
  foldl (fun files pkg => <[url pkg := dest_of pkg]> files) files pkgs !! u = files !! u.
Proof.
  revert files. induction pkgs as [|pkg pkgs IH]; intros files H; simpl; [reflexivity |].
  inversion H as [|? ? Hq Hrest]; subst.
  rewrite (IH _ Hrest). now rewrite lookup_insert_ne.
Qed.

Lemma files_of_last (l1 l2 : list Package) (p : Package) :
  Forall (fun q => url q ≠ url p) l2 ->
  files_of dest_of (l1 ++ p :: l2) !! url p = Some (dest_of p).
Proof.
  intros H. unfold files_of. rewrite foldl_app. simpl.
  rewrite (foldl_step_other l2 _ (url p) H).
  apply lookup_insert_eq.
Qed.

Lemma files_of_size (pkgs : list Package) :
  base.size (files_of dest_of pkgs) = length (remove_dups (url <$> pkgs)).
Proof.
  rewrite <- size_dom, files_of_dom.
  rewrite <- (size_list_to_set (C := gset string)) by apply NoDup_remove_dups.
  f_equal. apply set_eq. intros u.
  now rewrite !elem_of_list_to_set, elem_of_remove_dups.
Qed.
End files_of_facts.

Lemma elem_of_fetch_calls (t : list event) (files : gmap string string) (limit : Z) :
  FetchCall files limit ∈ t -> files ∈ fetch_calls t.
Proof.
  induction t as [|e t IH]; [intros H; inversion H |].
  intros [E | H]%elem_of_cons.
  - subst e. simpl. apply list_elem_of_here.
  - destruct e; simpl; auto. apply list_elem_of_further. auto.
Qed.

(** * The fetch plan of the vim lockfile *)

(** C3, as amended: for the lockfile with the [x86_64] group, the binary
    package [vim-enhanced] of repository [updates] and the source package
    [vim] of repository [updates-source], a run that completes hands the
    fetcher two mappings, first the binary url to
    [<output>/deps/rpm/x86_64/updates/vim-enhanced-9.1.158-1.fc38.x86_64.rpm],
    then the source url to
    [<output>/deps/rpm/sources/x86_64/updates-source/vim-9.1.158-1.fc38.src.rpm]
    ([<output>] not empty and without a trailing separator). *)
Theorem vim_fetch_plan (w : World) (output_dir : string) :
  os_path.is_empty output_dir = false ->
  os_path.endswith_sep output_dir = false ->
  outcome (download w vim_lock output_dir) = inr tt ->
  fetch_calls (trace (download w vim_lock output_dir))
  = [ {[ vim_enhanced_url :=
           output_dir +:+ "/deps/rpm/x86_64/updates/vim-enhanced-9.1.158-1.fc38.x86_64.rpm" ]};
      {[ vim_src_url :=
           output_dir
           +:+ "/deps/rpm/sources/x86_64/updates-source/vim-9.1.158-1.fc38.src.rpm" ]} ].
Proof.
  intros He Hs Hc.
  apply download_arches_completed in Hc as [Hc _].
  unfold download. rewrite Hc. simpl. unfold files_of. simpl.
  rewrite !insert_empty.
  rewrite dest_package_plain, dest_source_plain by (split; reflexivity).
  rewrite (deps_rpm_plain output_dir He Hs), !append_assoc.
  reflexivity.
Qed.

Lemma vim_fetch_plan_witness :
  fetch_calls (trace (download (world_with vim_lockfile 0) vim_lock "/out"))
  = [ {[ vim_enhanced_url :=
           "/out" +:+ "/deps/rpm/x86_64/updates/vim-enhanced-9.1.158-1.fc38.x86_64.rpm" ]};
      {[ vim_src_url :=
           "/out"
           +:+ "/deps/rpm/sources/x86_64/updates-source/vim-9.1.158-1.fc38.src.rpm" ]} ].
Proof.
  apply (vim_fetch_plan (world_with vim_lockfile 0) "/out"); reflexivity.
Defined.

(** C3, as stated, fails: with output directory [/out] no mapping of the run
    sends the binary url to [/out/x86_64/updates/...] or the source url to
    [/out/x86_64/updates-source/...]. *)
Lemma vim_fetch_plan_as_stated_fails :
  planned (trace (download (world_with vim_lockfile 0) vim_lock "/out"))
    vim_enhanced_url "/out/x86_64/updates/vim-enhanced-9.1.158-1.fc38.x86_64.rpm"
  = false
  ∧ planned (trace (download (world_with vim_lockfile 0) vim_lock "/out"))
      vim_src_url "/out/x86_64/updates-source/vim-9.1.158-1.fc38.src.rpm"
    = false.
Proof. split; vm_compute; reflexivity. Qed.

(** * Collisions of destination paths *)

Section collisions.
Import os_path.

Lemma has_sep_after (a b : string) : has_sep (a +:+ String "/" b) = true.
Proof. induction a as [|c a IH]; simpl; [reflexivity |]. rewrite IH. apply orb_true_r. Qed.

(** C6, as amended: for architectures and repository ids that are not
    empty and hold no separator, two entries are sent to the same
    destination exactly when they are of the same kind (both binary, or
    both source) and have the same architecture, the same repository id
    and the same url basename.  So a binary and a source entry never
    collide, and entries that differ in the rest of the url, in the
    checksum or in the size do. *)
Theorem dest_collision_iff (output_dir : string) (k1 k2 : kind)
    (a1 a2 : Arch) (p1 p2 : Package) :
  plain (arch a1) -> plain (arch a2) ->
  plain (repoid p1) -> plain (repoid p2) ->
  dest k1 output_dir a1 p1 = dest k2 output_dir a2 p2
  <-> k1 = k2 ∧ arch a1 = arch a2 ∧ repoid p1 = repoid p2
      ∧ basename (url p1) = basename (url p2).
Proof.
  intros Ha1 Ha2 Hr1 Hr2.
  pose proof (has_sep_basename (url p1)) as Hb1.
  pose proof (has_sep_basename (url p2)) as Hb2.
  split.
  - set (t1 := arch a1 +:+ String "/" (repoid p1 +:+ String "/" (basename (url p1)))).
    set (t2 := arch a2 +:+ String "/" (repoid p2 +:+ String "/" (basename (url p2)))).
    destruct k1, k2; simpl;
      rewrite ?dest_package_plain, ?dest_source_plain by assumption;
      fold t1 t2; intros H%append_cancel_l; injection H as H.
    + apply split_at_sep in H as [E1 H]; [| apply Ha1 | apply Ha2].
      apply split_at_sep in H as [E2 H]; [| apply Hr1 | apply Hr2].
      auto.
    + exfalso.
      destruct (split_at_sep (arch a1) "sources" _ t2 (proj2 Ha1) eq_refl H) as [_ H1].
      apply split_at_sep in H1 as [_ H1]; [| apply Hr1 | apply Ha2].
      rewrite H1, has_sep_after in Hb1. discriminate.
    + exfalso.
      destruct (split_at_sep "sources" (arch a2) t1 _ eq_refl (proj2 Ha2) H) as [_ H1].
      apply split_at_sep in H1 as [_ H1]; [| apply Ha1 | apply Hr2].
      rewrite <- H1, has_sep_after in Hb2. discriminate.
    + apply split_at_sep in H as [E1 H]; [| apply Ha1 | apply Ha2].
      apply split_at_sep in H as [E2 H]; [| apply Hr1 | apply Hr2].
      auto.
  - intros (<- & Ea & Er & Eb).
    destruct k1; simpl;
      rewrite ?dest_package_plain, ?dest_source_plain by assumption;
      now rewrite Ea, Er, Eb.
Qed.
End collisions.

Lemma dest_collision_iff_witness :
  dest Binary "/out" mirrored mirror_a = dest Binary "/out" mirrored mirror_b
  <-> Binary = Binary ∧ arch mirrored = arch mirrored
      ∧ repoid mirror_a = repoid mirror_b
      ∧ os_path.basename (url mirror_a) = os_path.basename (url mirror_b).
Proof.
  apply (dest_collision_iff "/out" Binary Binary mirrored mirrored mirror_a mirror_b);
    split; reflexivity.
Defined.

(** C6, as stated, fails: two distinct entries of the same sequence, with
    distinct urls, are sent to the same destination path, and the fetcher is
    handed both. *)
Lemma dest_not_injective :
  mirror_a ∈ packages mirrored ∧ mirror_b ∈ packages mirrored
  ∧ mirror_a ≠ mirror_b ∧ url mirror_a ≠ url mirror_b
  ∧ dest_package "/out" mirrored mirror_a = dest_package "/out" mirrored mirror_b
  ∧ planned (trace (download empty_world (mkRpmsLock 1 "redhat" "rpm" [mirrored]) "/out"))
      (url mirror_a) "/out/deps/rpm/x86_64/updates/vim-9.1.158-1.fc38.x86_64.rpm" = true
  ∧ planned (trace (download empty_world (mkRpmsLock 1 "redhat" "rpm" [mirrored]) "/out"))
      (url mirror_b) "/out/deps/rpm/x86_64/updates/vim-9.1.158-1.fc38.x86_64.rpm" = true.
Proof.
  repeat split; try (vm_compute; reflexivity); try discriminate.
  - apply list_elem_of_here.
  - apply list_elem_of_further, list_elem_of_here.
Qed.

(** Where a repository id is an absolute path, [os.path.join] drops what
    comes before it: a binary entry can then be sent where a source entry
    goes. *)
Example dest_absolute_repoid :
  dest_package "/out" x86_64
    (mkPackage "/out/deps/rpm/sources/x86_64/updates-source" vim_src_url "" 0)
  = dest_source "/out" x86_64 vim_src.
Proof. reflexivity. Qed.

(** * The order of the fetcher calls *)

(** C7: at every point of a download at most one call of the fetcher is in
    flight, and when a call is issued none is: every earlier call has
    returned, and the next thing to happen is the return of this one. *)
Theorem download_fetches_in_sequence (w : World) (self : RpmsLock)
    (output_dir : string) (before after : list event) :
  trace (download w self output_dir) = before ++ after ->
  (0 ≤ in_flight before ≤ 1)%Z
  ∧ ∀ files limit rest, after = FetchCall files limit :: rest ->
      in_flight before = 0%Z ∧ ∃ ok rest', rest = FetchReturn ok :: rest'.
Proof.
  intros E.
  pose proof (download_arches_Sequential w output_dir (arches self)) as HS.
  destruct (Sequential_split _ HS _ _ E) as [[H0 Ha] | [H1 (ok & rest' & -> & _)]].
  - split; [lia |]. intros files limit rest ->. split; [exact H0 |].
    inversion Ha as [|e t Hq _|f l ok t _]; subst; [destruct Hq | eauto].
  - split; [lia |]. intros files limit rest [=].
Qed.

Lemma download_fetches_in_sequence_witness :
  (0 ≤ in_flight (take 4 (trace (download empty_world vim_lock "/out"))) ≤ 1)%Z
  ∧ ∀ files limit rest,
      drop 4 (trace (download empty_world vim_lock "/out")) = FetchCall files limit :: rest ->
      in_flight (take 4 (trace (download empty_world vim_lock "/out"))) = 0%Z
      ∧ ∃ ok rest', rest = FetchReturn ok :: rest'.
Proof.
  apply (download_fetches_in_sequence empty_world vim_lock "/out").
  reflexivity.
Defined.

(** X9: complete or not, a download calls the fetcher with the first
    mappings of its plan, in the order of the plan: group by group, the
    binary packages of a group before its sources. *)
Lemma download_calls_in_plan_order (w : World) (self : RpmsLock) (output_dir : string) :
  fetch_calls (trace (download w self output_dir)) `prefix_of` plan output_dir (arches self).
Proof. apply download_arches_calls. Qed.

(** * Determinism of the plan *)

(** C8: two runs of the download over the same lockfile and the same output
    directory that both complete, in whatever worlds, hand the fetcher the
    same mappings in the same order and ask for the same directories. *)
Theorem download_plan_deterministic (w1 w2 : World) (self : RpmsLock) (output_dir : string) :
  outcome (download w1 self output_dir) = inr tt ->
  outcome (download w2 self output_dir) = inr tt ->
  fetch_calls (trace (download w1 self output_dir))
  = fetch_calls (trace (download w2 self output_dir))
  ∧ made_dirs (trace (download w1 self output_dir))
    = made_dirs (trace (download w2 self output_dir)).
Proof.
  intros H1 H2.
  apply download_arches_completed in H1 as [H1 H1'].
  apply download_arches_completed in H2 as [H2 H2'].
  unfold download. now rewrite H1, H1', H2, H2'.
Qed.

Lemma download_plan_deterministic_witness :
  fetch_calls (trace (download empty_world vim_lock "/out"))
  = fetch_calls (trace (download other_world vim_lock "/out"))
  ∧ made_dirs (trace (download empty_world vim_lock "/out"))
    = made_dirs (trace (download other_world vim_lock "/out")).
Proof.
  apply (download_plan_deterministic empty_world other_world vim_lock "/out");
    reflexivity.
Defined.

(** * One entry per url *)

(** C10: the mapping that a partition hands to the fetcher, in its single
    call, has the urls of the partition as its keys, one entry for every
    distinct url, and sends a url to the destination of the last entry
    listed with it. *)
Theorem partition_one_entry_per_url (w : World) (dest_of : Package -> string)
    (pkgs : list Package) (files : gmap string string) (limit : Z) :
  FetchCall files limit ∈ trace (download_partition w dest_of pkgs) ->
  fetch_calls (trace (download_partition w dest_of pkgs)) = [files]
  ∧ dom files = list_to_set (url <$> pkgs)
  ∧ base.size files = length (remove_dups (url <$> pkgs))
  ∧ ∀ l1 p l2, pkgs = l1 ++ p :: l2 ->
      Forall (fun q => url q ≠ url p) l2 ->
      files !! url p = Some (dest_of p).
Proof.
  intros H%elem_of_fetch_calls.
  destruct (download_partition_calls w dest_of pkgs) as [E | E]; rewrite E in H.
  - inversion H.
  - apply list_elem_of_singleton in H as ->.
    split; [exact E |]. split; [apply files_of_dom |].
    split; [apply files_of_size |].
    intros l1 p l2 -> Hl2. now apply files_of_last.
Qed.

Lemma partition_one_entry_per_url_witness :
  let dest_of := dest_package "/out" x86_64 in
  let pkgs := [listed_first; listed_second] in
  let files : gmap string string :=
    {[ vim_enhanced_url :=
         "/out/deps/rpm/x86_64/updates-testing/vim-enhanced-9.1.158-1.fc38.x86_64.rpm" ]} in
  fetch_calls (trace (download_partition empty_world dest_of pkgs)) = [files]
  ∧ dom files = list_to_set (url <$> pkgs)
  ∧ base.size files = length (remove_dups (url <$> pkgs))
  ∧ ∀ l1 p l2, pkgs = l1 ++ p :: l2 ->
      Forall (fun q => url q ≠ url p) l2 ->
      files !! url p = Some (dest_of p).
Proof.
  intros dest_of pkgs files.
  apply (partition_one_entry_per_url empty_world dest_of pkgs files 5).
  vm_compute. do 2 apply list_elem_of_further. apply list_elem_of_here.
Defined.

Example test_lockfile_described : described_lockfile test_lockfile = true.
Proof. vm_compute. reflexivity. Qed.

Example vim_lockfile_declared : declared_lockfile is_int is_str vim_lockfile = true.
Proof. vm_compute. reflexivity. Qed.

(** * Parsing *)

Section validation_facts.
Variable int_field : yaml -> option Z.
Variable str_field : yaml -> option string.















End validation_facts.

Section parsing.
Variable int_field : yaml -> option Z.
Variable str_field : yaml -> option string.

Local Abbreviation Package_validate := (Package_validate int_field str_field).
Local Abbreviation Arch_validate := (Arch_validate int_field str_field).
Local Abbreviation RpmsLock_validate := (RpmsLock_validate int_field str_field).
Local Abbreviation RpmsLock_new := (RpmsLock_new int_field str_field).




(** A mapping without [lockfileType] does not validate, whatever else it
    holds. *)
Lemma RpmsLock_validate_lockfileType (m : gmap string yaml) :
  m !! "lockfileType" = None -> RpmsLock_validate m = None.
Proof.
  intros H. unfold RpmsLock_validate, required. rewrite H. simpl.
  destruct (m !! "lockfileVersion" ≫= int_field); simpl; [|reflexivity].
  destruct (m !! "lockfileVendor" ≫= str_field); reflexivity.
Qed.

(** A group without [sources] does not validate, whatever else it holds. *)
Lemma Arch_validate_sources (m : gmap string yaml) :
  m !! "sources" = None -> Arch_validate m = None.
Proof.
  intros H. unfold Arch_validate, required. rewrite H. simpl.
  destruct (m !! "arch" ≫= str_field); simpl; [|reflexivity].
  destruct (m !! "packages" ≫= _); reflexivity.
Qed.


Hypothesis int_field_int : ∀ n, int_field (YInt n) = Some n.
Hypothesis str_field_str : ∀ s, str_field (YStr s) = Some s.
Hypothesis int_field_scalar : ∀ v, scalar v = false -> int_field v = None.
Hypothesis str_field_scalar : ∀ v, scalar v = false -> str_field v = None.






End parsing.


(** A key that is not a string makes a [TypeError] of the call, whatever
    the other keys are. *)
Example integer_keyed_lockfile_rejected :
  RpmsLock_new exact_int exact_str integer_keyed_lockfile = inl TypeError.
Proof. reflexivity. Qed.

(** A set is taken where a list is declared. *)
Example set_lockfile_parses :
  RpmsLock_new exact_int exact_str set_lockfile
  = inr (mkRpmsLock 1 "redhat" "rpm" [mkArch "x86_64" [vim_enhanced] []]).
Proof. vm_compute. reflexivity. Qed.

(** A list is not a size, for any reading of scalars. *)
Example list_sized_lockfile_not_scalar :
  accepted_lockfile scalar scalar list_sized_lockfile = false.
Proof. vm_compute. reflexivity. Qed.

Example vim_lockfile_parses : RpmsLock_new exact_int exact_str vim_lockfile = inr vim_lock.
Proof. vm_compute. reflexivity. Qed.


(** * The fetch *)

Lemma opened_app (t1 t2 : list event) : opened (t1 ++ t2) = opened t1 ++ opened t2.
Proof.
  induction t1 as [|[] t1 IH]; simpl; auto. now rewrite IH.
Qed.

Lemma fill_files_opens_nothing (w : World) (dest_of : Package -> string)
    (pkgs : list Package) (files : gmap string string) :
  opened (trace (fill_files w dest_of pkgs files)) = [].
Proof.
  revert files. induction pkgs as [|pkg rest IH]; intros files; simpl; [reflexivity |].
  rewrite os_makedirs_unfold. destruct (makedirs_ok w _); [|reflexivity].
  rewrite bind_value. simpl. apply IH.
Qed.

Lemma download_partition_opens_nothing (w : World) (dest_of : Package -> string)
    (pkgs : list Package) :
  opened (trace (download_partition w dest_of pkgs)) = [].
Proof.
  unfold download_partition.
  pose proof (fill_files_opens_nothing w dest_of pkgs ∅) as H.
  destruct (fill_files w dest_of pkgs ∅) as [t [e | files]]; simpl in H; [exact H |].
  rewrite bind_value, run_async_download_files_unfold. simpl.
  now rewrite opened_app, H.
Qed.

Lemma download_opens_nothing (w : World) (self : RpmsLock) (output_dir : string) :
  opened (trace (download w self output_dir)) = [].
Proof.
  unfold download. induction (arches self) as [|a rest IH]; simpl; [reflexivity |].
  pose proof (download_partition_opens_nothing w (dest_package output_dir a) (packages a)) as H1.
  pose proof (download_partition_opens_nothing w (dest_source output_dir a) (sources a)) as H2.
  destruct (download_partition w (dest_package output_dir a) (packages a))
    as [t1 [e1 | []]]; [exact H1 |].
  rewrite bind_value.
  destruct (download_partition w (dest_source output_dir a) (sources a))
    as [t2 [e2 | []]]; simpl in H1, H2.
  - simpl. now rewrite opened_app, H1, H2.
  - rewrite bind_value. simpl. now rewrite !opened_app, H1, H2, IH.
Qed.

Lemma fill_files_getsize (w : World) (sizes : string -> Z) (dest_of : Package -> string)
    (pkgs : list Package) (files : gmap string string) :
  fill_files (with_sizes w sizes) dest_of pkgs files = fill_files w dest_of pkgs files.
Proof.
  revert files. induction pkgs as [|pkg rest IH]; intros files; simpl; [reflexivity |].
  rewrite !os_makedirs_unfold. change (makedirs_ok (with_sizes w sizes)) with (makedirs_ok w).
  destruct (makedirs_ok w _); [|reflexivity].
  now rewrite !bind_value, IH.
Qed.

Lemma download_partition_getsize (w : World) (sizes : string -> Z)
    (dest_of : Package -> string) (pkgs : list Package) :
  download_partition (with_sizes w sizes) dest_of pkgs = download_partition w dest_of pkgs.
Proof.
  unfold download_partition. rewrite fill_files_getsize.
  destruct (fill_files w dest_of pkgs ∅) as [t [e | files]]; [reflexivity |].
  rewrite !bind_value. reflexivity.
Qed.

Lemma download_getsize (w : World) (sizes : string -> Z) (self : RpmsLock)
    (output_dir : string) :
  download (with_sizes w sizes) self output_dir = download w self output_dir.
Proof.
  unfold download. induction (arches self) as [|a rest IH]; simpl; [reflexivity |].
  rewrite !download_partition_getsize.
  destruct (download_partition w (dest_package output_dir a) (packages a))
    as [t1 [e1 | []]]; [reflexivity |].
  rewrite !bind_value.
  destruct (download_partition w (dest_source output_dir a) (sources a))
    as [t2 [e2 | []]]; [reflexivity |].
  now rewrite !bind_value, IH.
Qed.

Section fetch.
Variable int_field : yaml -> option Z.
Variable str_field : yaml -> option string.
Variable Request : Type.
Variable output_dir : Request -> string.

Local Abbreviation RpmsLock_new := (RpmsLock_new int_field str_field).
Local Abbreviation from_file := (from_file int_field str_field).
Local Abbreviation fetch_rpm_source :=
  (fetch_rpm_source int_field str_field Request output_dir).

Lemma from_file_unfold (w : World) (path : string) :
  from_file w path
  = ([Open path],
     match fs w path with
     | None => inl (FileNotFoundError path)
     | Some None => inl YAMLError
     | Some (Some doc) => RpmsLock_new doc
     end).
Proof.
  unfold from_file, open_and_load.
  destruct (fs w path) as [[doc|]|]; reflexivity.
Qed.

(** A fetch whose lockfile parses is the opening of the lockfile followed
    by the download, and its components are the empty list. *)
Lemma fetch_rpm_source_parsed (w : World) (request : Request) (lock : RpmsLock) :
  outcome (from_file w "rpms.lock.yaml") = inr lock ->
  fetch_rpm_source w request
  = (Open "rpms.lock.yaml" :: trace (download w lock (output_dir request)),
     match outcome (download w lock (output_dir request)) with
     | inl e => inl e
     | inr _ => inr (from_obj_list [])
     end).
Proof.
  intros H. unfold fetch_rpm_source.
  rewrite from_file_unfold in H |- *. cbn [outcome snd] in H. rewrite H, bind_value.
  destruct (download w lock (output_dir request)) as [t [e | []]]; simpl; [reflexivity |].
  now rewrite app_nil_r.
Qed.

Lemma fetch_rpm_source_unparsed (w : World) (request : Request) (e : exn) :
  outcome (from_file w "rpms.lock.yaml") = inl e ->
  fetch_rpm_source w request = ([Open "rpms.lock.yaml"], inl e).
Proof.
  intros H. unfold fetch_rpm_source.
  rewrite from_file_unfold in H |- *. cbn [outcome snd] in H. now rewrite H.
Qed.

(** C4, as amended: without a file [rpms.lock.yaml] in the working directory
    the fetch ends with the [FileNotFoundError] of the failed [open], which
    carries the name [rpms.lock.yaml]; the attempt to open the file is its
    only external operation: no directory is made and the fetcher is not
    called. *)
Theorem fetch_rpm_source_missing_lockfile (w : World) (request : Request) :
  fs w "rpms.lock.yaml" = None ->
  outcome (fetch_rpm_source w request) = inl (FileNotFoundError "rpms.lock.yaml")
  ∧ trace (fetch_rpm_source w request) = [Open "rpms.lock.yaml"]
  ∧ made_dirs (trace (fetch_rpm_source w request)) = []
  ∧ fetch_calls (trace (fetch_rpm_source w request)) = [].
Proof.
  intros H.
  rewrite (fetch_rpm_source_unparsed w request (FileNotFoundError "rpms.lock.yaml"))
    by (rewrite from_file_unfold; simpl; now rewrite H).
  auto.
Qed.

(** C9: the fetch opens the file [rpms.lock.yaml], and no other, whatever
    the request; and two requests with the same output directory are
    fetched alike: same external operations, same result. *)
Theorem fetch_rpm_source_request (w : World) (r1 r2 : Request) :
  output_dir r1 = output_dir r2 ->
  fetch_rpm_source w r1 = fetch_rpm_source w r2
  ∧ opened (trace (fetch_rpm_source w r1)) = ["rpms.lock.yaml"].
Proof.
  intros E. split.
  - unfold fetch_rpm_source. now rewrite E.
  - destruct (outcome (from_file w "rpms.lock.yaml")) as [e | lock] eqn:Hf.
    + now rewrite (fetch_rpm_source_unparsed w r1 e Hf).
    + rewrite (fetch_rpm_source_parsed w r1 lock Hf). simpl.
      now rewrite download_opens_nothing.
Qed.

(** X12: whatever a fetch returns has no components. *)
Lemma fetch_rpm_source_components (w : World) (request : Request) (out : RequestOutput) :
  outcome (fetch_rpm_source w request) = inr out -> components out = [].
Proof.
  destruct (outcome (from_file w "rpms.lock.yaml")) as [e | lock] eqn:Hf.
  - now rewrite (fetch_rpm_source_unparsed w request e Hf).
  - rewrite (fetch_rpm_source_parsed w request lock Hf). simpl.
    destruct (outcome (download w lock (output_dir request))); [discriminate |].
    now intros [= <-].
Qed.

(** What is on disk after the downloads has no part in a fetch. *)
Lemma fetch_rpm_source_getsize (w : World) (request : Request) (sizes : string -> Z) :
  fetch_rpm_source (with_sizes w sizes) request = fetch_rpm_source w request.
Proof.
  unfold fetch_rpm_source.
  rewrite !from_file_unfold. change (fs (with_sizes w sizes)) with (fs w).
  destruct (fs w "rpms.lock.yaml") as [[doc|]|]; try reflexivity.
  destruct (RpmsLock_new doc) as [e | lock]; [reflexivity |].
  rewrite !bind_value. now rewrite download_getsize.
Qed.

End fetch.

Lemma fetch_rpm_source_missing_lockfile_witness :
  outcome (fetch_rpm_source exact_int exact_str PlainRequest request_output_dir
             empty_world plain_request)
  = inl (FileNotFoundError "rpms.lock.yaml")
  ∧ trace (fetch_rpm_source exact_int exact_str PlainRequest request_output_dir
             empty_world plain_request)
    = [Open "rpms.lock.yaml"]
  ∧ made_dirs (trace (fetch_rpm_source exact_int exact_str PlainRequest request_output_dir
                        empty_world plain_request)) = []
  ∧ fetch_calls (trace (fetch_rpm_source exact_int exact_str PlainRequest request_output_dir
                          empty_world plain_request)) = [].
Proof.
  apply (fetch_rpm_source_missing_lockfile exact_int exact_str PlainRequest
           request_output_dir empty_world plain_request).
  reflexivity.
Defined.

(** C4, as stated, fails: where the lockfile is missing, the exception that
    ends the fetch is not the error of the schema, pydantic's
    [ValidationError], nor any other error of the module's own (it raises
    none), but the [FileNotFoundError] that [open] raises. *)
Lemma missing_lockfile_error_of_open :
  outcome (fetch_rpm_source exact_int exact_str PlainRequest request_output_dir
             empty_world plain_request)
  = inl (FileNotFoundError "rpms.lock.yaml")
  ∧ outcome (fetch_rpm_source exact_int exact_str PlainRequest request_output_dir
               empty_world plain_request)
    ≠ inl ValidationError.
Proof. split; [reflexivity | discriminate]. Qed.

Lemma fetch_rpm_source_request_witness :
  fetch_rpm_source exact_int exact_str PlainRequest request_output_dir
    (world_with vim_lockfile 0) (mkPlainRequest "/src" "/out")
  = fetch_rpm_source exact_int exact_str PlainRequest request_output_dir
      (world_with vim_lockfile 0) (mkPlainRequest "/elsewhere" "/out")
  ∧ opened (trace (fetch_rpm_source exact_int exact_str PlainRequest request_output_dir
                     (world_with vim_lockfile 0) (mkPlainRequest "/src" "/out")))
    = ["rpms.lock.yaml"].
Proof.
  apply (fetch_rpm_source_request exact_int exact_str PlainRequest request_output_dir
           (world_with vim_lockfile 0)
           (mkPlainRequest "/src" "/out") (mkPlainRequest "/elsewhere" "/out")).
  reflexivity.
Defined.

(** A failure of the fetcher ends the fetch: the sources are not asked for. *)
Example fetch_rpm_source_offline :
  fetch_rpm_source exact_int exact_str PlainRequest request_output_dir
    (offline_world vim_lockfile) plain_request
  = ([Open "rpms.lock.yaml";
      Makedirs "/out/deps/rpm/x86_64/updates";
      FetchCall {[ vim_enhanced_url := dest_package "/out" x86_64 vim_enhanced ]} 5;
      FetchReturn false],
     inl FetchError).
Proof. vm_compute. reflexivity. Qed.

(** C1, on the code: the lockfile declares 1976132 bytes for the binary
    package and 14735448 for the source package, every file that the
    downloads leave on disk has 0 bytes, and the fetch completes: after the
    second return of the fetcher nothing more happens. *)
Theorem fetch_rpm_source_unverified :
  getsize (world_with vim_lockfile 0) (dest_package "/out" x86_64 vim_enhanced)
  ≠ size vim_enhanced
  ∧ fetch_rpm_source exact_int exact_str PlainRequest request_output_dir
      (world_with vim_lockfile 0) plain_request
    = ([Open "rpms.lock.yaml";
        Makedirs "/out/deps/rpm/x86_64/updates";
        FetchCall {[ vim_enhanced_url := dest_package "/out" x86_64 vim_enhanced ]} 5;
        FetchReturn true;
        Makedirs "/out/deps/rpm/sources/x86_64/updates-source";
        FetchCall {[ vim_src_url := dest_source "/out" x86_64 vim_src ]} 5;
        FetchReturn true],
       inr (from_obj_list [])).
Proof. split; [discriminate | vm_compute; reflexivity]. Qed.

(** C2, on the code: the lockfile lists one binary package, its download
    succeeds, and the fetch returns no component. *)
Theorem fetch_rpm_source_no_components :
  packages x86_64 = [vim_enhanced]
  ∧ planned (trace (fetch_rpm_source exact_int exact_str PlainRequest request_output_dir
                      (world_with vim_lockfile 0) plain_request))
      vim_enhanced_url
      "/out/deps/rpm/x86_64/updates/vim-enhanced-9.1.158-1.fc38.x86_64.rpm" = true
  ∧ outcome (fetch_rpm_source exact_int exact_str PlainRequest request_output_dir
               (world_with vim_lockfile 0) plain_request)
    = inr (mkRequestOutput []).
Proof. repeat split; vm_compute; reflexivity. Qed.

(** * More on destinations *)

Section dest_facts.
Import os_path.

Lemma has_sep_append (a b : string) : has_sep (a +:+ b) = has_sep a || has_sep b.
Proof.
  induction a as [|c a IH]; simpl; [reflexivity |]. now rewrite IH, orb_assoc.
Qed.

Lemma endswith_sep_has_sep (x : string) : endswith_sep x = true -> has_sep x = true.
Proof.
  induction x as [|c x IH]; simpl; [discriminate |].
  destruct x; [intros ->; reflexivity |]. intros H. rewrite (IH H). apply orb_true_r.
Qed.

Lemma basename_plain (b : string) : has_sep b = false -> basename b = b.
Proof.
  destruct b as [|c b]; simpl; [reflexivity |].
  intros [Hc Hb]%orb_false_iff. now rewrite Hb, Hc.
Qed.

Lemma basename_after_sep (x b : string) :
  has_sep b = false -> basename (x +:+ String "/" b) = b.
Proof.
  intros Hb. induction x as [|c x IH]; simpl.
  - now rewrite Hb.
  - now rewrite has_sep_after.
Qed.

Lemma basename_after_endswith_sep (x b : string) :
  endswith_sep x = true -> has_sep b = false -> basename (x +:+ b) = b.
Proof.
  intros Hx Hb. induction x as [|c x IH]; [discriminate |].
  simpl in Hx |- *. destruct x as [|c' x].
  - simpl. now rewrite Hb, Hx.
  - rewrite has_sep_append, (endswith_sep_has_sep _ Hx). simpl. auto.
Qed.

Lemma basename_join_step (path b : string) :
  has_sep b = false -> basename (join_step path b) = b.
Proof.
  intros Hb. unfold join_step. rewrite (has_sep_startswith b Hb).
  destruct path as [|c path]; [now apply basename_plain |].
  cbn [is_empty orb].
  destruct (endswith_sep (String c path)) eqn:He.
  - now apply basename_after_endswith_sep.
  - now apply (basename_after_sep (String c path) b).
Qed.

(** X1: a package is stored under the name that its url ends with, whatever
    the output directory, the architecture and the repository id are. *)
Theorem basename_of_dest (k : kind) (output_dir : string) (a : Arch) (pkg : Package) :
  basename (dest k output_dir a pkg) = basename (url pkg).
Proof.
  destruct k; unfold dest, dest_package, dest_source, join; simpl;
    apply basename_join_step, has_sep_basename.
Qed.

Lemma head_after_sep (x b : string) :
  has_sep b = false -> head (x +:+ String "/" b) = x +:+ "/".
Proof.
  intros Hb. induction x as [|c x IH]; simpl.
  - now rewrite Hb.
  - now rewrite has_sep_after, IH.
Qed.

Lemma all_sep_endswith (x : string) :
  is_empty x = false -> endswith_sep x = false -> all_sep x = false.
Proof.
  induction x as [|c x IH]; [discriminate |]. intros _ He. simpl in He |- *.
  destruct x as [|c' x]; [now rewrite He |].
  rewrite IH by (reflexivity || exact He). apply andb_false_r.
Qed.

Lemma all_sep_append (x y : string) : all_sep (x +:+ y) = all_sep x && all_sep y.
Proof.
  induction x as [|c x IH]; simpl; [reflexivity |]. now rewrite IH, andb_assoc.
Qed.

Lemma rstrip_sep_after (x : string) : rstrip_sep (x +:+ "/") = rstrip_sep x.
Proof. induction x as [|c x IH]; simpl; [reflexivity | now rewrite IH]. Qed.

Lemma rstrip_sep_plain (x : string) : endswith_sep x = false -> rstrip_sep x = x.
Proof.
  induction x as [|c x IH]; [reflexivity |]. intros He. simpl in He |- *.
  destruct x as [|c' x]; [simpl; now rewrite He |].
  rewrite (IH He). simpl. now rewrite andb_false_r.
Qed.

Lemma dirname_after_sep (x b : string) :
  is_empty x = false -> endswith_sep x = false -> has_sep b = false ->
  dirname (x +:+ String "/" b) = x.
Proof.
  intros Hx He Hb. unfold dirname. rewrite (head_after_sep x b Hb).
  rewrite all_sep_append, (all_sep_endswith x Hx He). simpl.
  now rewrite rstrip_sep_after, rstrip_sep_plain.
Qed.

Lemma join_two (path a r : string) :
  is_empty path = false -> endswith_sep path = false -> plain a -> plain r ->
  join path [a; r] = path +:+ String "/" (a +:+ String "/" r)
  ∧ is_empty (join path [a; r]) = false ∧ endswith_sep (join path [a; r]) = false.
Proof.
  intros H1 H2 Ha Hr. unfold join. simpl.
  rewrite (join_step_component path a H1 H2) by (apply has_sep_startswith, Ha).
  destruct (endswith_sep_component path a Ha) as [H3 H4].
  rewrite (join_step_component _ r H3 H4) by (apply has_sep_startswith, Hr).
  destruct (endswith_sep_component (path +:+ String "/" a) r Hr) as [H5 H6].
  rewrite append_assoc in *. auto.
Qed.

(** X2: where the architecture and the repository id are plain, the
    directory that [download] makes for a package is the join of all the
    components but the file name: [<output>/deps/rpm/<arch>/<repoid>] for a
    binary package and [<output>/deps/rpm/sources/<arch>/<repoid>] for a
    source package, whatever the url. *)
Theorem dirname_of_dest (output_dir : string) (a : Arch) (pkg : Package) :
  plain (arch a) -> plain (repoid pkg) ->
  dirname (dest_package output_dir a pkg)
  = join output_dir ["deps"; "rpm"; arch a; repoid pkg]
  ∧ dirname (dest_source output_dir a pkg)
    = join output_dir ["deps"; "rpm"; "sources"; arch a; repoid pkg].
Proof.
  intros Ha Hr. destruct (deps_rpm_ends output_dir) as [H1 H2]. split.
  - change (join output_dir ["deps"; "rpm"; arch a; repoid pkg])
      with (join (deps_rpm output_dir) [arch a; repoid pkg]).
    destruct (join_two _ _ _ H1 H2 Ha Hr) as (E & H3 & H4).
    rewrite dest_package_plain by assumption.
    rewrite E in H3, H4 |- *.
    rewrite <- (dirname_after_sep _ (basename (url pkg)) H3 H4 (has_sep_basename _)).
    f_equal. rewrite !append_assoc. simpl. now rewrite ?append_assoc.
  - change (join output_dir ["deps"; "rpm"; "sources"; arch a; repoid pkg])
      with (join (join_step (deps_rpm output_dir) "sources") [arch a; repoid pkg]).
    rewrite (join_step_component _ "sources" H1 H2 eq_refl).
    destruct (endswith_sep_component (deps_rpm output_dir) "sources") as [H3 H4];
      [now split |].
    destruct (join_two _ _ _ H3 H4 Ha Hr) as (E & H5 & H6).
    rewrite dest_source_plain by assumption.
    rewrite E in H5, H6 |- *.
    rewrite <- (dirname_after_sep _ (basename (url pkg)) H5 H6 (has_sep_basename _)).
    f_equal. rewrite !append_assoc. simpl. now rewrite ?append_assoc.
Qed.

Lemma join_step_absolute (path b : string) :
  startswith_sep b = true -> join_step path b = b.
Proof. intros H. unfold join_step. now rewrite H. Qed.

(** X3: a repository id that starts with a separator takes the place of all
    that comes before it: the destination is the join of the repository id
    and the file name, the same for every output directory, every
    architecture and both kinds. *)
Theorem dest_absolute_repoid_anywhere (k : kind) (output_dir : string)
    (a : Arch) (pkg : Package) :
  startswith_sep (repoid pkg) = true ->
  dest k output_dir a pkg = join (repoid pkg) [basename (url pkg)]
  ∧ ∀ k' output_dir' a', dest k' output_dir' a' pkg = dest k output_dir a pkg.
Proof.
  intros H.
  assert (E : ∀ k0 o0 a0, dest k0 o0 a0 pkg = join (repoid pkg) [basename (url pkg)]).
  { intros k0 o0 a0.
    destruct k0; unfold dest, dest_package, dest_source, join; simpl;
      now rewrite (join_step_absolute _ (repoid pkg) H). }
  split; [apply E |]. intros k' o' a'. now rewrite !E.
Qed.

End dest_facts.

Lemma dirname_of_dest_witness :
  os_path.dirname (dest_package "/out" x86_64 vim_enhanced)
  = os_path.join "/out" ["deps"; "rpm"; arch x86_64; repoid vim_enhanced]
  ∧ os_path.dirname (dest_source "/out" x86_64 vim_enhanced)
    = os_path.join "/out" ["deps"; "rpm"; "sources"; arch x86_64; repoid vim_enhanced].
Proof.
  apply (dirname_of_dest "/out" x86_64 vim_enhanced); split; reflexivity.
Defined.

Lemma dest_absolute_repoid_anywhere_witness :
  dest Binary "/out" x86_64 (mkPackage "/etc" vim_enhanced_url "" 0)
  = os_path.join (repoid (mkPackage "/etc" vim_enhanced_url "" 0))
      [os_path.basename (url (mkPackage "/etc" vim_enhanced_url "" 0))]
  ∧ ∀ k' output_dir' a',
      dest k' output_dir' a' (mkPackage "/etc" vim_enhanced_url "" 0)
      = dest Binary "/out" x86_64 (mkPackage "/etc" vim_enhanced_url "" 0).
Proof.
  apply (dest_absolute_repoid_anywhere Binary "/out" x86_64
           (mkPackage "/etc" vim_enhanced_url "" 0)).
  reflexivity.
Defined.

(** * When a download completes, and how it fails *)

Lemma bind_completes {A B} (m : M A) (k : A -> M B) (a : A) (b : B) :
  outcome m = inr a -> outcome (k a) = inr b -> outcome (bind m k) = inr b.
Proof.
  destruct m as [t [e | a']]; [discriminate |].
  intros H. cbn in H. injection H as ->. now rewrite bind_value.
Qed.

Lemma bind_failed {A B} (m : M A) (k : A -> M B) (e : exn) :
  outcome (bind m k) = inl e ->
  (outcome m = inl e ∧ trace (bind m k) = trace m)
  ∨ ∃ a, outcome m = inr a ∧ outcome (k a) = inl e
         ∧ trace (bind m k) = trace m ++ trace (k a).
Proof.
  destruct m as [t [e' | a]].
  - intros H. cbn in H. injection H as ->. now left.
  - rewrite bind_value. cbn [outcome snd trace fst]. right. eauto.
Qed.

Lemma bind_Forall {A B} (P : event -> Prop) (m : M A) (k : A -> M B) :
  Forall P (trace m) -> (∀ a, Forall P (trace (k a))) -> Forall P (trace (bind m k)).
Proof.
  intros Hm Hk. destruct m as [t [e | a]]; [exact Hm |].
  rewrite bind_value. simpl. apply Forall_app. split; [exact Hm | apply Hk].
Qed.

Lemma fill_files_makedirs (w : World) (dest_of : Package -> string)
    (pkgs : list Package) (files : gmap string string) :
  Forall (fun dir => makedirs_ok w dir = true)
    (map (fun pkg => os_path.dirname (dest_of pkg)) pkgs)
  <-> ∃ f, outcome (fill_files w dest_of pkgs files) = inr f.
Proof.
  revert files. induction pkgs as [|pkg rest IH]; intros files; simpl.
  - split; [eauto | constructor].
  - rewrite os_makedirs_unfold, Forall_cons.
    destruct (makedirs_ok w _) eqn:Hm.
    + rewrite bind_value. simpl. rewrite IH. intuition eauto.
    + simpl. split; [intros [[=] _] | intros [f [=]]].
Qed.

Lemma download_partition_iff (w : World) (dest_of : Package -> string)
    (pkgs : list Package) :
  outcome (download_partition w dest_of pkgs) = inr tt
  <-> Forall (fun dir => makedirs_ok w dir = true)
        (map (fun pkg => os_path.dirname (dest_of pkg)) pkgs)
      ∧ fetch_ok w (files_of dest_of pkgs) = true.
Proof.
  unfold download_partition. rewrite (fill_files_makedirs w dest_of pkgs ∅).
  pose proof (fill_files_completed w dest_of pkgs ∅) as Hc.
  destruct (fill_files w dest_of pkgs ∅) as [t [e | files]]; simpl in Hc.
  - simpl. split; [discriminate | intros [[f [=]] _]].
  - destruct (Hc files eq_refl) as (-> & _ & _). fold (files_of dest_of pkgs).
    rewrite bind_value, run_async_download_files_unfold. simpl.
    destruct (fetch_ok w _); split; eauto; try discriminate. now intros [_ [=]].
Qed.

(** X4: a download completes exactly when the world lets every directory
    of the plan be made and the fetcher succeeds on every mapping of the
    plan. *)
Theorem download_completes_iff (w : World) (self : RpmsLock) (output_dir : string) :
  outcome (download w self output_dir) = inr tt
  <-> Forall (fun dir => makedirs_ok w dir = true) (plan_dirs output_dir (arches self))
      ∧ Forall (fun files => fetch_ok w files = true) (plan output_dir (arches self)).
Proof.
  unfold download. induction (arches self) as [|a rest IH]; simpl.
  - split; [intros _; split; constructor | reflexivity].
  - rewrite !Forall_app, !Forall_cons.
    pose proof (download_partition_iff w (dest_package output_dir a) (packages a)) as H1.
    pose proof (download_partition_iff w (dest_source output_dir a) (sources a)) as H2.
    split.
    + intros H. apply bind_completed in H as ([] & Hp & H & _).
      apply bind_completed in H as ([] & Hs & H & _).
      apply H1 in Hp as [Hp1 Hp2]. apply H2 in Hs as [Hs1 Hs2].
      apply IH in H as [Hr1 Hr2]. auto.
    + intros [(Hp1 & Hs1 & Hr1) (Hp2 & Hs2 & Hr2)].
      apply (bind_completes _ _ tt); [apply H1; auto |].
      apply (bind_completes _ _ tt); [apply H2; auto |].
      apply IH. auto.
Qed.

Lemma stopped_app (w : World) (e : exn) (t0 t : list event) :
  stopped w e t -> stopped w e (t0 ++ t).
Proof.
  intros [(path & t' & -> & Hm & ->) | (files & t' & -> & Hf & ->)].
  - left. exists path, (t0 ++ t'). now rewrite app_assoc.
  - right. exists files, (t0 ++ t'). now rewrite app_assoc.
Qed.

Lemma fill_files_stopped (w : World) (dest_of : Package -> string)
    (pkgs : list Package) (files : gmap string string) (e : exn) :
  outcome (fill_files w dest_of pkgs files) = inl e ->
  stopped w e (trace (fill_files w dest_of pkgs files)).
Proof.
  revert files. induction pkgs as [|pkg rest IH]; intros files; simpl; [discriminate |].
  rewrite os_makedirs_unfold. destruct (makedirs_ok w _) eqn:Hm.
  - rewrite bind_value. simpl. intros H.
    apply (stopped_app w e [_]). now apply IH.
  - simpl. intros [= <-]. left. exists (os_path.dirname (dest_of pkg)), []. auto.
Qed.

Lemma download_partition_stopped (w : World) (dest_of : Package -> string)
    (pkgs : list Package) (e : exn) :
  outcome (download_partition w dest_of pkgs) = inl e ->
  stopped w e (trace (download_partition w dest_of pkgs)).
Proof.
  unfold download_partition. intros H.
  apply bind_failed in H as [[H ->] | (files & _ & H & ->)].
  - now apply fill_files_stopped.
  - apply stopped_app. revert H. rewrite run_async_download_files_unfold. simpl.
    destruct (fetch_ok w files) eqn:Hf; [discriminate |]. intros [= <-].
    right. exists files, []. auto.
Qed.

(** X5: a download that fails has stopped at the operation that failed:
    its exception is the [OSError] of an [os.makedirs] that the world
    refused, or the error of a failed fetcher call, and that operation is the
    last of the trace, so that nothing is made or fetched after a failure. *)
Theorem download_stopped (w : World) (self : RpmsLock) (output_dir : string) (e : exn) :
  outcome (download w self output_dir) = inl e ->
  stopped w e (trace (download w self output_dir)).
Proof.
  unfold download. induction (arches self) as [|a rest IH]; simpl; [discriminate |].
  intros H.
  apply bind_failed in H as [[H ->] | ([] & _ & H & ->)];
    [now apply download_partition_stopped |].
  apply stopped_app.
  apply bind_failed in H as [[H ->] | ([] & _ & H & ->)];
    [now apply download_partition_stopped |].
  apply stopped_app. now apply IH.
Qed.

Lemma download_stopped_witness :
  stopped (offline_world vim_lockfile) FetchError
    (trace (download (offline_world vim_lockfile) vim_lock "/out")).
Proof.
  apply (download_stopped (offline_world vim_lockfile) vim_lock "/out" FetchError).
  reflexivity.
Defined.

Example download_readonly :
  download readonly_world vim_lock "/out"
  = ([Makedirs "/out/deps/rpm/x86_64/updates"], inl (OSError "/out/deps/rpm/x86_64/updates")).
Proof. reflexivity. Qed.

(** * What a download hands to the fetcher *)

Lemma fill_files_configured (w : World) (dest_of : Package -> string)
    (pkgs : list Package) (files : gmap string string) :
  Forall (configured w) (trace (fill_files w dest_of pkgs files)).
Proof.
  apply (Forall_impl quiet); [apply fill_files_quiet |].
  now intros [].
Qed.

Lemma download_partition_configured (w : World) (dest_of : Package -> string)
    (pkgs : list Package) :
  Forall (configured w) (trace (download_partition w dest_of pkgs)).
Proof.
  unfold download_partition. apply bind_Forall; [apply fill_files_configured |].
  intros files. rewrite run_async_download_files_unfold. simpl.
  repeat constructor.
Qed.

(** X6: every call of the fetcher that a download makes carries the
    concurrency limit of the configuration. *)
Theorem download_limit (w : World) (self : RpmsLock) (output_dir : string)
    (files : gmap string string) (limit : Z) :
  FetchCall files limit ∈ trace (download w self output_dir) ->
  limit = concurrency_limit w.
Proof.
  assert (H : Forall (configured w) (trace (download w self output_dir))).
  { unfold download. induction (arches self) as [|a rest IH]; simpl; [constructor |].
    apply bind_Forall; [apply download_partition_configured |]. intros _.
    apply bind_Forall; [apply download_partition_configured |]. intros _.
    exact IH. }
  rewrite Forall_forall in H. intros Hin. exact (H _ Hin).
Qed.

Lemma download_limit_witness :
  5%Z = concurrency_limit empty_world.
Proof.
  apply (download_limit empty_world vim_lock "/out"
           {[ vim_enhanced_url := dest_package "/out" x86_64 vim_enhanced ]} 5).
  vm_compute. apply list_elem_of_further, list_elem_of_here.
Defined.

Lemma dirs_ready_weaken (t : list event) (made made' : list string) :
  (∀ x, x ∈ made -> x ∈ made') -> dirs_ready made t -> dirs_ready made' t.
Proof.
  revert made made'. induction t as [|ev t IH]; intros made made' Hsub; [auto |].
  destruct ev; simpl; eauto.
  - apply IH. intros x [-> | Hx]%elem_of_cons;
      [apply list_elem_of_here | apply list_elem_of_further; auto].
  - intros [Hf Ht]. split; [| eauto]. intros u x Hux. eauto.
Qed.

Lemma dirs_ready_app (t1 t2 : list event) (made : list string) :
  dirs_ready made t1 -> dirs_ready made t2 -> dirs_ready made (t1 ++ t2).
Proof.
  revert made. induction t1 as [|ev t1 IH]; intros made H1 H2; [exact H2 |].
  destruct ev; simpl in H1 |- *; auto.
  - apply IH; [exact H1 |].
    apply (dirs_ready_weaken t2 made); [| exact H2].
    intros x Hx. now apply list_elem_of_further.
  - destruct H1 as [Hf H1]. auto.
Qed.

(** The values of the dictionary of a partition are destinations of its
    packages. *)
Lemma files_of_lookup (dest_of : Package -> string) (pkgs : list Package)
    (u x : string) :
  files_of dest_of pkgs !! u = Some x -> ∃ pkg, pkg ∈ pkgs ∧ x = dest_of pkg.
Proof.
  induction pkgs as [|pkg pkgs IH] using rev_ind.
  - unfold files_of. simpl. now rewrite lookup_empty.
  - rewrite files_of_snoc, lookup_insert. case_decide as E.
    + intros [= <-]. exists pkg. split; [| reflexivity].
      apply elem_of_app. right. apply list_elem_of_here.
    + intros (q & Hq & ->)%IH. exists q. split; [| reflexivity].
      apply elem_of_app. now left.
Qed.

(** The loop has made the directory of every destination that it has put
    in [files]. *)
Lemma fill_files_ready (w : World) (dest_of : Package -> string)
    (pkgs : list Package) (files : gmap string string) (made : list string)
    (k : gmap string string -> M unit) :
  (∀ u x, files !! u = Some x -> os_path.dirname x ∈ made) ->
  (∀ f made', (∀ u x, f !! u = Some x -> os_path.dirname x ∈ made') ->
     dirs_ready made' (trace (k f))) ->
  dirs_ready made (trace (bind (fill_files w dest_of pkgs files) k)).
Proof.
  revert files made. induction pkgs as [|pkg rest IH]; intros files made Hfiles Hk.
  - cbn [fill_files]. unfold ret. rewrite bind_value. simpl. now apply Hk.
  - cbn [fill_files]. rewrite os_makedirs_unfold. destruct (makedirs_ok w _).
    + rewrite bind_value. cbn [app].
      assert (E : ∀ (m : M (gmap string string)),
                 trace (bind (Makedirs (os_path.dirname (dest_of pkg)) :: trace m, outcome m) k)
                 = Makedirs (os_path.dirname (dest_of pkg)) :: trace (bind m k)).
      { intros [t [e | f]]; [reflexivity |].
        unfold bind, trace, outcome. simpl. now destruct (k f). }
      rewrite E. simpl. apply IH; [| exact Hk].
      intros u x. rewrite lookup_insert. case_decide.
      * intros [= <-]. apply list_elem_of_here.
      * intros Hx. apply list_elem_of_further. eauto.
    + simpl. exact I.
Qed.

Lemma download_partition_ready (w : World) (dest_of : Package -> string)
    (pkgs : list Package) (made : list string) :
  dirs_ready made (trace (download_partition w dest_of pkgs)).
Proof.
  unfold download_partition. apply fill_files_ready.
  - intros u x. now rewrite lookup_empty.
  - intros f made' Hf. rewrite run_async_download_files_unfold. simpl. auto.
Qed.

Lemma download_ready (w : World) (self : RpmsLock) (output_dir : string) :
  dirs_ready [] (trace (download w self output_dir)).
Proof.
  unfold download. induction (arches self) as [|a rest IH]; simpl; [exact I |].
  pose proof (download_partition_ready w (dest_package output_dir a) (packages a) []) as H1.
  pose proof (download_partition_ready w (dest_source output_dir a) (sources a) []) as H2.
  destruct (download_partition w (dest_package output_dir a) (packages a))
    as [t1 [e1 | []]]; [exact H1 |].
  rewrite bind_value. cbn [trace fst]. apply dirs_ready_app; [exact H1 |].
  destruct (download_partition w (dest_source output_dir a) (sources a))
    as [t2 [e2 | []]]; [exact H2 |].
  rewrite bind_value. cbn [trace fst]. apply dirs_ready_app; [exact H2 | exact IH].
Qed.

Lemma dirs_ready_before (before after : list event) (made : list string)
    (files : gmap string string) (limit : Z) (u x : string) :
  dirs_ready made (before ++ FetchCall files limit :: after) ->
  files !! u = Some x ->
  os_path.dirname x ∈ made_dirs before ∨ os_path.dirname x ∈ made.
Proof.
  revert made. induction before as [|ev before IH]; intros made H Hux.
  - right. simpl in H. destruct H as [H _]. eauto.
  - destruct ev as [p | d | f l | ok]; simpl in H |- *.
    + now apply IH.
    + destruct (IH _ H Hux) as [Hin | [-> | Hin]%elem_of_cons]; auto.
      * left. now apply list_elem_of_further.
      * left. apply list_elem_of_here.
    + destruct H as [_ H]. now apply IH.
    + now apply IH.
Qed.

(** X7: when a download calls the fetcher, the directory of every
    destination of the mapping has been asked of [os.makedirs] earlier in the
    run. *)
Theorem download_dirs_before_fetch (w : World) (self : RpmsLock) (output_dir : string)
    (before after : list event) (files : gmap string string) (limit : Z) (u x : string) :
  trace (download w self output_dir) = before ++ FetchCall files limit :: after ->
  files !! u = Some x ->
  os_path.dirname x ∈ made_dirs before.
Proof.
  intros E Hux. pose proof (download_ready w self output_dir) as H.
  rewrite E in H. destruct (dirs_ready_before _ _ _ _ _ _ _ H Hux) as [Hin | Hin];
    [exact Hin | inversion Hin].
Qed.

Lemma download_dirs_before_fetch_witness :
  os_path.dirname "/out/deps/rpm/sources/x86_64/updates-source/vim-9.1.158-1.fc38.src.rpm"
  ∈ made_dirs (take 4 (trace (download empty_world vim_lock "/out"))).
Proof.
  apply (download_dirs_before_fetch empty_world vim_lock "/out"
           (take 4 (trace (download empty_world vim_lock "/out"))) [FetchReturn true]
           {[ vim_src_url := dest_source "/out" x86_64 vim_src ]} 5 vim_src_url);
    reflexivity.
Defined.

Lemma length_plan (output_dir : string) (l : list Arch) :
  length (plan output_dir l) = 2 * length l.
Proof. induction l as [|a l IH]; simpl; [reflexivity | rewrite IH; lia]. Qed.

Lemma length_plan_dirs (output_dir : string) (l : list Arch) :
  length (plan_dirs output_dir l) = length (entries l).
Proof.
  induction l as [|a l IH]; simpl; [reflexivity |].
  unfold entries in *. simpl.
  now rewrite !length_app, !length_map, IH, Nat.add_assoc.
Qed.

(** X8: a download that completes has called the fetcher twice for every
    architecture group, empty lists of packages or of sources included, and
    has asked for a directory once for every package entry. *)
Theorem download_counts (w : World) (self : RpmsLock) (output_dir : string) :
  outcome (download w self output_dir) = inr tt ->
  length (fetch_calls (trace (download w self output_dir))) = 2 * length (arches self)
  ∧ length (made_dirs (trace (download w self output_dir)))
    = length (entries (arches self)).
Proof.
  intros H. apply download_arches_completed in H as [Hc Hd].
  unfold download. rewrite Hc, Hd. split; [apply length_plan | apply length_plan_dirs].
Qed.

Lemma download_counts_witness :
  length (fetch_calls (trace (download empty_world
            (mkRpmsLock 1 "redhat" "rpm" [mkArch "s390x" [] []; x86_64]) "/out")))
  = 2 * length (arches (mkRpmsLock 1 "redhat" "rpm" [mkArch "s390x" [] []; x86_64]))
  ∧ length (made_dirs (trace (download empty_world
              (mkRpmsLock 1 "redhat" "rpm" [mkArch "s390x" [] []; x86_64]) "/out")))
    = length (entries (arches (mkRpmsLock 1 "redhat" "rpm" [mkArch "s390x" [] []; x86_64]))).
Proof.
  apply (download_counts empty_world
           (mkRpmsLock 1 "redhat" "rpm" [mkArch "s390x" [] []; x86_64]) "/out").
  reflexivity.
Defined.

(** * More on parsing *)

Section parsing_more.
Variable int_field : yaml -> option Z.
Variable str_field : yaml -> option string.

Local Abbreviation Package_validate := (Package_validate int_field str_field).
Local Abbreviation Arch_validate := (Arch_validate int_field str_field).
Local Abbreviation RpmsLock_validate := (RpmsLock_validate int_field str_field).
Local Abbreviation RpmsLock_new := (RpmsLock_new int_field str_field).

(** X14: a key that names no field is ignored: adding [key] to the mapping
    of a lockfile, or [source] (or any other key than [arch], [packages] and
    [sources]) to the mapping of an architecture group, changes nothing to
    what the mapping validates to. *)
Theorem validate_ignores_other_keys (m : gmap string yaml) (key : string) (v : yaml) :
  (key ∉ ["lockfileVersion"; "lockfileVendor"; "lockfileType"; "arches"] ->
   RpmsLock_validate (<[key := v]> m) = RpmsLock_validate m)
  ∧ (key ∉ ["arch"; "packages"; "sources"] ->
     Arch_validate (<[key := v]> m) = Arch_validate m)
  ∧ (key ∉ ["repoid"; "url"; "checksum"; "size"] ->
     Package_validate (<[key := v]> m) = Package_validate m).
Proof.
  repeat split; intros H;
    unfold RpmsLock_validate, Arch_validate, Package_validate, required;
    rewrite !lookup_insert_ne; try reflexivity;
    intros ->; apply H; repeat constructor.
Qed.

Hypothesis int_field_int : ∀ n, int_field (YInt n) = Some n.
Hypothesis str_field_str : ∀ s, str_field (YStr s) = Some s.

Lemma Package_validate_doc (p : Package) :
  model_field Package_validate (Package_doc p) = Some p.
Proof.
  destruct p as [r u c s]. unfold Package_doc, model_field, Package_validate, required.
  cbn [repoid url checksum size].
  change (list_to_map _ !! "repoid") with (Some (YStr r)).
  change (list_to_map _ !! "url") with (Some (YStr u)).
  change (list_to_map _ !! "checksum") with (Some (YStr c)).
  change (list_to_map _ !! "size") with (Some (YInt s)).
  simpl. now rewrite !str_field_str, int_field_int.
Qed.

Lemma Arch_validate_doc (a : Arch) :
  model_field Arch_validate (Arch_doc a) = Some a.
Proof.
  destruct a as [n ps ss]. unfold Arch_doc, model_field, Arch_validate, required.
  cbn [arch packages sources].
  change (list_to_map _ !! "arch") with (Some (YStr n)).
  change (list_to_map _ !! "packages") with (Some (YSeq (Package_doc <$> ps))).
  change (list_to_map _ !! "sources") with (Some (YSeq (Package_doc <$> ss))).
  simpl. rewrite str_field_str. simpl.
  rewrite !(mapM_fmap_Forall_Some _ Package_doc)
    by (apply Forall_forall; intros; apply Package_validate_doc).
  reflexivity.
Qed.

(** X13: where pydantic reads an integer as an [int] and a string as a
    [str], the mapping that holds the fields of a lock under the declared
    keys is parsed back to that very lock: no field is changed, and the
    groups and their packages keep their order. *)
Theorem RpmsLock_new_doc (self : RpmsLock) :
  RpmsLock_new (RpmsLock_doc self) = inr self.
Proof.
  destruct self as [ver ven ty ars].
  unfold RpmsLock_doc.
  unfold RpmsLock_new, RpmsLock_validate, required.
  cbn [lockfileVersion lockfileVendor lockfileType arches].
  change (list_to_map _ !! "lockfileVersion") with (Some (YInt ver)).
  change (list_to_map _ !! "lockfileVendor") with (Some (YStr ven)).
  change (list_to_map _ !! "lockfileType") with (Some (YStr ty)).
  change (list_to_map _ !! "arches") with (Some (YSeq (Arch_doc <$> ars))).
  simpl. rewrite int_field_int, !str_field_str. simpl.
  rewrite (mapM_fmap_Forall_Some _ Arch_doc)
    by (apply Forall_forall; intros; apply Arch_validate_doc).
  reflexivity.
Qed.

End parsing_more.

Lemma RpmsLock_new_doc_witness :
  RpmsLock_new exact_int exact_str (RpmsLock_doc vim_lock) = inr vim_lock.
Proof.
  apply (RpmsLock_new_doc exact_int exact_str); intros; reflexivity.
Defined.

(** * More on the fetch *)

Section fetch_more.
Variable int_field : yaml -> option Z.
Variable str_field : yaml -> option string.
Variable Request : Type.
Variable output_dir : Request -> string.

Local Abbreviation RpmsLock_new := (RpmsLock_new int_field str_field).
Local Abbreviation from_file := (from_file int_field str_field).
Local Abbreviation fetch_rpm_source :=
  (fetch_rpm_source int_field str_field Request output_dir).

Lemma from_file_loaded (w : World) (path : string) (lock : RpmsLock) :
  outcome (from_file w path) = inr lock
  <-> ∃ doc, fs w path = Some (Some doc) ∧ RpmsLock_new doc = inr lock.
Proof.
  rewrite from_file_unfold. cbn [outcome snd].
  destruct (fs w path) as [[doc|]|].
  - split; [eauto | now intros (doc' & [= <-] & H)].
  - split; [discriminate | now intros (doc' & [=] & _)].
  - split; [discriminate | now intros (doc' & [=] & _)].
Qed.

(** X10: a fetch completes exactly when the file [rpms.lock.yaml] exists, is
    loaded as a document that parses to a lock, every directory of the
    lock's plan can be made and the fetcher succeeds on every mapping of the
    plan; what it returns then is the output without components. *)
Theorem fetch_rpm_source_completes_iff (w : World) (request : Request)
    (out : RequestOutput) :
  outcome (fetch_rpm_source w request) = inr out
  <-> out = from_obj_list []
      ∧ ∃ doc lock,
          fs w "rpms.lock.yaml" = Some (Some doc)
          ∧ RpmsLock_new doc = inr lock
          ∧ Forall (fun dir => makedirs_ok w dir = true)
              (plan_dirs (output_dir request) (arches lock))
          ∧ Forall (fun files => fetch_ok w files = true)
              (plan (output_dir request) (arches lock)).
Proof.
  destruct (outcome (from_file w "rpms.lock.yaml")) as [e | lock] eqn:Hf.
  - rewrite (fetch_rpm_source_unparsed _ _ _ _ w request e Hf). cbn [outcome snd].
    split; [discriminate |]. intros (_ & doc & lock & Hfs & Hnew & _).
    assert (H : outcome (from_file w "rpms.lock.yaml") = inr lock)
      by (apply from_file_loaded; eauto).
    rewrite Hf in H. discriminate.
  - rewrite (fetch_rpm_source_parsed _ _ _ _ w request lock Hf). cbn [outcome snd].
    pose proof (download_completes_iff w lock (output_dir request)) as Hd.
    apply from_file_loaded in Hf as (doc & Hfs & Hnew).
    destruct (outcome (download w lock (output_dir request))) as [e | []].
    + split; [discriminate |]. intros (_ & doc' & lock' & Hfs' & Hnew' & H1 & H2).
      rewrite Hfs in Hfs'. injection Hfs' as <-.
      rewrite Hnew in Hnew'. injection Hnew' as <-.
      assert (H : (inl e : exn + unit) = inr tt) by (apply Hd; auto). discriminate.
    + split.
      * intros [= <-]. split; [reflexivity |].
        exists doc, lock. destruct Hd as [Hd _]. destruct (Hd eq_refl). auto.
      * now intros [-> _].
Qed.

(** X11: an exception of either step ends the fetch unchanged.  If the
    lockfile cannot be opened, loaded or parsed, the fetch ends with that
    exception after the one attempt to open it, with no directory made and
    no call of the fetcher; if the download fails, the fetch ends with the
    exception of the download. *)
Theorem fetch_rpm_source_propagates (w : World) (request : Request) (e : exn) :
  (outcome (from_file w "rpms.lock.yaml") = inl e ->
   outcome (fetch_rpm_source w request) = inl e
   ∧ trace (fetch_rpm_source w request) = [Open "rpms.lock.yaml"])
  ∧ (∀ lock, outcome (from_file w "rpms.lock.yaml") = inr lock ->
       outcome (download w lock (output_dir request)) = inl e ->
       outcome (fetch_rpm_source w request) = inl e).
Proof.
  split.
  - intros Hf. now rewrite (fetch_rpm_source_unparsed _ _ _ _ w request e Hf).
  - intros lock Hf Hd.
    rewrite (fetch_rpm_source_parsed _ _ _ _ w request lock Hf). cbn [outcome snd].
    now rewrite Hd.
Qed.

End fetch_more.

Example fetch_rpm_source_not_yaml :
  fetch_rpm_source exact_int exact_str PlainRequest request_output_dir
    other_world plain_request
  = ([Open "rpms.lock.yaml"], inl YAMLError).
Proof. reflexivity. Qed.

Example fetch_rpm_source_empty_file :
  fetch_rpm_source exact_int exact_str PlainRequest request_output_dir
    (world_with YNull 0) plain_request
  = ([Open "rpms.lock.yaml"], inl TypeError).
Proof. reflexivity. Qed.

Lemma fetch_rpm_source_components_witness :
  components (from_obj_list []) = [].
Proof.
  apply (fetch_rpm_source_components exact_int exact_str PlainRequest request_output_dir
           (world_with vim_lockfile 0) plain_request (from_obj_list [])).
  vm_compute. reflexivity.
Defined.

(** X15: at the end of a download, completed or failed, no call of the
    fetcher is in flight: every call that was issued has returned. *)
Theorem download_all_returned (w : World) (self : RpmsLock) (output_dir : string) :
  in_flight (trace (download w self output_dir)) = 0%Z.
Proof.
  pose proof (download_arches_Sequential w output_dir (arches self)) as HS.
  destruct (Sequential_split _ HS (trace (download w self output_dir)) [])
    as [[H _] | [_ (ok & rest & [=] & _)]]; [now rewrite app_nil_r | exact H].
Qed.
